(** * ctd/plotting.py: shadow-zone extrapolation, topography mask, maximum depth

    A shallow embedding of [get_maxdepth], [extrap_sec] and [gen_topomask]
    of [ctd/plotting.py], with the numpy and scipy operations they call,
    and the properties of the specification stated over it. *)

From Stdlib Require Import String.
From Stdlib Require Import List ZArith QArith Qcanon Qround Lia Lqa Bool Sorted.
Import ListNotations.

Set Implicit Arguments.
Local Open Scope nat_scope.

(** ** Floating-point scalars

    A numpy [float64] is modelled as an extended rational: the NaN marker,
    the two infinities, or a finite value taken exactly.  Arithmetic follows
    IEEE 754 on the special values (NaN is absorbing, [inf - inf], [0 * inf],
    [0 / 0] and [inf / inf] are NaN, a non-zero value over zero is an
    infinity); finite results are exact, so rounding and overflow are not
    modelled, and zero is unsigned. *)

Inductive float : Type :=
| NaN
| Inf (neg : bool)
| Fin (q : Qc).

(** The comparisons of rationals as booleans. *)
Definition Qcltb (a b : Qc) : bool :=
  match (a ?= b)%Qc with Lt => true | _ => false end.

Definition Qceqb (a b : Qc) : bool :=
  match (a ?= b)%Qc with Eq => true | _ => false end.

(** The float of the integer [z], and of the fraction [n / d]. *)
Definition fz (z : Z) : float := Fin (Q2Qc (inject_Z z)).
Definition fq (n : Z) (d : positive) : float := Fin (Q2Qc (n # d)).

(** [np.isnan] and [np.isfinite] *)
Definition isnan (a : float) : bool :=
  match a with NaN => true | _ => false end.

Definition isfinite (a : float) : bool :=
  match a with Fin _ => true | _ => false end.

Definition fneg (a : float) : float :=
  match a with
  | NaN => NaN
  | Inf s => Inf (negb s)
  | Fin q => Fin (- q)%Qc
  end.

Definition fadd (a b : float) : float :=
  match a, b with
  | NaN, _ | _, NaN => NaN
  | Inf s, Inf t => if Bool.eqb s t then Inf s else NaN
  | Inf s, Fin _ => Inf s
  | Fin _, Inf t => Inf t
  | Fin p, Fin q => Fin (p + q)%Qc
  end.

Definition fsub (a b : float) : float := fadd a (fneg b).

Definition fmul (a b : float) : float :=
  match a, b with
  | NaN, _ | _, NaN => NaN
  | Inf s, Inf t => Inf (xorb s t)
  | Inf s, Fin q => if Qceqb q 0 then NaN else Inf (xorb s (Qcltb q 0))
  | Fin p, Inf t => if Qceqb p 0 then NaN else Inf (xorb (Qcltb p 0) t)
  | Fin p, Fin q => Fin (p * q)%Qc
  end.

Definition fdiv (a b : float) : float :=
  match a, b with
  | NaN, _ | _, NaN => NaN
  | Inf _, Inf _ => NaN
  | Inf s, Fin q => Inf (xorb s (Qcltb q 0))
  | Fin _, Inf _ => Fin 0%Qc
  | Fin p, Fin q =>
      if Qceqb q 0 then (if Qceqb p 0 then NaN else Inf (Qcltb p 0))
      else Fin (p / q)%Qc
  end.

(** [a < b]: false as soon as one side is NaN. *)
Definition fltb (a b : float) : bool :=
  match a, b with
  | NaN, _ | _, NaN => false
  | Inf s, Inf t => s && negb t
  | Inf s, Fin _ => s
  | Fin _, Inf t => negb t
  | Fin p, Fin q => Qcltb p q
  end.

(** The same value, NaN being the same as NaN: the test that compares
    computed arrays, not the [==] of Python. *)
Definition feqb (a b : float) : bool :=
  match a, b with
  | NaN, NaN => true
  | Inf s, Inf t => Bool.eqb s t
  | Fin p, Fin q => Qceqb p q
  | _, _ => false
  end.

(** The order numpy sorts and searches by: [<] with NaN after everything. *)
Definition np_ltb (a b : float) : bool :=
  match a, b with
  | NaN, _ => false
  | _, NaN => true
  | _, _ => fltb a b
  end.

(** [np.maximum]: the larger value, NaN if either is. *)
Definition fmax (a b : float) : float :=
  match a, b with
  | NaN, _ | _, NaN => NaN
  | _, _ => if fltb a b then b else a
  end.

Declare Scope float_scope.
Delimit Scope float_scope with float.
Bind Scope float_scope with float.
Infix "+" := fadd : float_scope.
Infix "-" := fsub : float_scope.
Infix "*" := fmul : float_scope.
Infix "/" := fdiv : float_scope.
Infix "<?" := fltb : float_scope.
Notation "- a" := (fneg a) : float_scope.

(** ** Exceptions *)

Inductive exn : Type := IndexError | ValueError.

Inductive result (A : Type) : Type :=
| Ok (a : A)
| Raise (e : exn).
Arguments Raise {A} e.

Definition bind {A B} (c : result A) (k : A -> result B) : result B :=
  match c with
  | Ok a => k a
  | Raise e => Raise e
  end.

Notation "x <- c ;; k" := (bind c (fun x => k))
  (at level 61, c at next level, right associativity).

Fixpoint mapM {A B} (f : A -> result B) (l : list A) : result (list B) :=
  match l with
  | [] => Ok []
  | a :: l' => b <- f a ;; bs <- mapM f l' ;; Ok (b :: bs)
  end.

(** ** numpy arrays

    A 1-D array is a list, a 2-D array the list of its rows.  The number of
    columns is read off the first row, so the empty shapes [(0, n)] are all
    the array without rows. *)

Section Arrays.
Context {A : Type}.

Definition ncols (a : list (list A)) : nat :=
  match a with
  | [] => 0
  | r :: _ => length r
  end.

(** [a.T] *)
Definition transpose (d : A) (a : list (list A)) : list (list A) :=
  map (fun j => map (fun r => nth j r d) a) (seq 0 (ncols a)).

(** Rows all of the same length [n]. *)
Definition rect (n : nat) (a : list (list A)) : Prop :=
  Forall (fun r => length r = n) a.

(** [a[mask]] for a boolean [mask]: the entries where the mask holds; an
    [IndexError] when the mask has another length than [a]. *)
Fixpoint compress (mask : list bool) (a : list A) : list A :=
  match mask, a with
  | b :: mask', v :: a' =>
      if b then v :: compress mask' a' else compress mask' a'
  | _, _ => []
  end.

Definition getitem_mask (a : list A) (mask : list bool) : result (list A) :=
  if length mask =? length a then Ok (compress mask a)
  else Raise IndexError.

(** [np.repeat(a, n)]: every entry [n] times. *)
Definition np_repeat (a : list A) (n : nat) : list A :=
  flat_map (fun v => repeat v n) a.

(** [a[-1]] *)
Definition getitem_last (a : list A) : result A :=
  match rev a with
  | [] => Raise IndexError
  | v :: _ => Ok v
  end.
End Arrays.

(** [a.max()]: NaN as soon as an entry is NaN; a [ValueError] on no entry. *)
Definition amax (a : list float) : result float :=
  match a with
  | [] => Raise ValueError
  | v :: a' => Ok (fold_left fmax a' v)
  end.

(** [np.cumsum] *)
Fixpoint cumsum_from (acc : float) (a : list float) : list float :=
  match a with
  | [] => []
  | v :: a' => (acc + v)%float :: cumsum_from (acc + v)%float a'
  end.

Definition cumsum (a : list float) : list float :=
  match a with
  | [] => []
  | v :: a' => v :: cumsum_from v a'
  end.

(** [a.mean()]: the sum over the number of entries, NaN on no entry. *)
Definition mean (a : list float) : float :=
  (fold_left fadd a (fz 0) / fz (Z.of_nat (length a)))%float.

(** [np.arange(start, stop, step)]: [ceil((stop - start) / step)] values
    [start + i * step]; numpy refuses a length that is not finite.  The
    length and the values are exact here; numpy rounds them to [float64],
    so that its last value can fall short of the exact one by a rounding
    error, or the length differ by one. *)
Definition arange (start stop step : float) : result (list float) :=
  match ((stop - start) / step)%float with
  | Fin q =>
      Ok (map (fun i => (start + fz (Z.of_nat i) * step)%float)
              (seq 0 (Z.to_nat (Qceiling q))))
  | _ => Raise ValueError
  end.

(** Elementwise product of two 1-D arrays of one length. *)
Fixpoint mul_arrays (a b : list float) : result (list float) :=
  match a, b with
  | [], [] => Ok []
  | u :: a', v :: b' => r <- mul_arrays a' b' ;; Ok ((u * v)%float :: r)
  | _, _ => Raise ValueError
  end.

(** ** pandas: a DataFrame of profiles

    [index] holds the depth (pressure) levels, [values] the table of one
    variable, a row per level and a column per station. *)

Record DataFrame : Type := {
  index : list float;
  values : list (list float)
}.

(** [Series.notnull] *)
Definition notnull (v : float) : bool := negb (isnan v).

(** [True] is 1 and [False] is 0 in arithmetic. *)
Definition of_bool (b : bool) : float := if b then fz 1 else fz 0.

(** [get_maxdepth], lines 36-38. *)
Definition get_maxdepth (self : DataFrame) : result (list float) :=
  let valid_last_depth := transpose false (map (map notnull) (values self)) in
  prod <- mapM (fun m => mul_arrays (index self) (map of_bool m))
               valid_last_depth ;;
  mapM amax prod.

(** ** scipy.interpolate.interp1d

    The fitted interpolant keeps its points ordered by abscissa: scipy sorts
    them with a stable sort (its older releases expect them in order), so
    points given in non-decreasing order are kept as they are.  [call] is
    the evaluation method selected by the kind of interpolation; for the
    linear kind it is [interp1d._call_linear], the method of the releases of
    scipy the program was written for. *)

Record interp1d : Type := {
  ix : list float;
  iy : list float;
  bounds_error : bool;
  fill_value : float;
  call : float -> float
}.

Fixpoint insert_point (p : float * float) (l : list (float * float))
  : list (float * float) :=
  match l with
  | [] => [p]
  | q :: l' =>
      if np_ltb (fst q) (fst p) then q :: insert_point p l' else p :: l
  end.

Definition sort_points (l : list (float * float)) : list (float * float) :=
  fold_right insert_point [] l.

(** [np.searchsorted(a, v)]: the first position whose entry is not below
    [v]. *)
Fixpoint searchsorted (a : list float) (v : float) : nat :=
  match a with
  | [] => 0
  | u :: a' => if np_ltb u v then S (searchsorted a' v) else 0
  end.

(** [i.clip(lo, hi)] *)
Definition clip (i lo hi : nat) : nat := Nat.min (Nat.max i lo) hi.

(** [interp1d._call_linear]: the segment of [x_new] is found by
    [searchsorted], clipped so that it exists, and the line through its two
    ends is evaluated (exactly here, up to rounding in [float64]). *)
Definition call_linear (x y : list float) (x_new : float) : float :=
  let x_new_indices := clip (searchsorted x x_new) 1 (length x - 1) in
  let lo := x_new_indices - 1 in
  let hi := x_new_indices in
  let x_lo := nth lo x NaN in
  let x_hi := nth hi x NaN in
  let y_lo := nth lo y NaN in
  let y_hi := nth hi y NaN in
  let slope := ((y_hi - y_lo) / (x_hi - x_lo))%float in
  (slope * (x_new - x_lo) + y_lo)%float.

(** [interp1d(x, y, kind='linear', bounds_error=..., fill_value=...)] *)
Definition interp1d_linear (x y : list float) (bounds_error : bool)
    (fill_value : float) : result interp1d :=
  if negb (length x =? length y) then Raise ValueError
  else if length x <? 2 then Raise ValueError
  else
    let p := sort_points (combine x y) in
    Ok {| ix := map fst p; iy := map snd p;
          bounds_error := bounds_error; fill_value := fill_value;
          call := call_linear (map fst p) (map snd p) |}.

(** [interp1d.__call__] at one point: outside the fitted range the
    interpolant raises or answers [fill_value]. *)
Definition interp1d_call (f : interp1d) (x_new : float) : result float :=
  let below_bounds := (x_new <? hd NaN (ix f))%float in
  let above_bounds := (last (ix f) NaN <? x_new)%float in
  if below_bounds || above_bounds then
    if bounds_error f then Raise ValueError else Ok (fill_value f)
  else Ok (call f x_new).

(** ** utilities.extrap1d *)

(** Modelled from the spec: [utilities.extrap1d], the linear extrapolant of
    section 4.1, is not among the source files.  Outside the fitted range it
    answers the boundary value plus the boundary slope times the distance to
    the boundary, the slope taken between the boundary point and the next
    point inwards; inside the range it answers what the interpolant does. *)
Definition extrap1d (interpolator : interp1d) (x : float) : result float :=
  let xs := ix interpolator in
  let ys := iy interpolator in
  let n := length xs in
  if (x <? nth 0 xs NaN)%float then
    let slope := ((nth 1 ys NaN - nth 0 ys NaN)
                  / (nth 1 xs NaN - nth 0 xs NaN))%float in
    Ok (nth 0 ys NaN + slope * (x - nth 0 xs NaN))%float
  else if (nth (n - 1) xs NaN <? x)%float then
    let slope := ((nth (n - 1) ys NaN - nth (n - 2) ys NaN)
                  / (nth (n - 1) xs NaN - nth (n - 2) xs NaN))%float in
    Ok (nth (n - 1) ys NaN + slope * (x - nth (n - 1) xs NaN))%float
  else interp1d_call interpolator x.

(** ** extrap_sec *)

(** The body of the two loops of [extrap_sec] (lines 72-81 and 86-95, the
    same up to the names): [line] is a row and [axis] is [dist], or [line]
    is a column and [axis] is [depth]. *)
Definition extrap_line (axis line : list float) : result (list float) :=
  let mask := map (fun v => negb (isnan v)) line in
  if existsb (fun b => b) mask then
    let y := compress mask line in
    if length y =? 1 then Ok (np_repeat y (length mask))
    else
      x <- getitem_mask axis mask ;;
      f_i <- interp1d_linear x y true NaN ;;
      mapM (extrap1d f_i) axis
  else Ok line.

(** Elementwise [a * w1 + b * w2] of two 2-D arrays of one shape. *)
Definition blend (a b : list (list float)) (w1 w2 : float)
  : list (list float) :=
  map (fun rs => map (fun uv => (fst uv * w1 + snd uv * w2)%float)
                     (combine (fst rs) (snd rs)))
      (combine a b).

(** The first loop, lines 70-82, builds [new_data1] row by row against
    [dist]; the second, lines 84-96, builds [new_data2] column by column
    against [depth]. *)
Definition row_pass (data : list (list float)) (dist : list float)
  : result (list (list float)) :=
  mapM (extrap_line dist) data.

Definition col_pass (data : list (list float)) (depth : list float)
  : result (list (list float)) :=
  mapM (extrap_line depth) (transpose NaN data).

(** [extrap_sec], lines 70-99. *)
Definition extrap_sec (data : list (list float)) (dist depth : list float)
    (w1 w2 : float) : result (list (list float)) :=
  new_data1 <- row_pass data dist ;;
  new_data2 <- col_pass data depth ;;
  Ok (blend new_data1 (transpose NaN new_data2) w1 w2).

(** The grids the function is called on: at least one depth level and one
    station, a value per station in every row, a distance per station and a
    depth per level. *)
Definition well_shaped (data : list (list float)) (dist depth : list float)
  : Prop :=
  data <> [] /\ dist <> [] /\
  rect (length dist) data /\ length depth = length data.

(** The column of station [j]. *)
Definition column (j : nat) (data : list (list float)) : list float :=
  map (fun r => nth j r NaN) data.

(** The valid entries of a row or column. *)
Definition valid (line : list float) : list float :=
  filter (fun v => negb (isnan v)) line.

(** ** gen_topomask *)

Section Topography.
(** The oceanographic toolbox is not part of the program:
    [gsw_distance lon lat] stands for [gsw.distance(lon, lat)[0]], the
    distances in metres between consecutive stations, and
    [gsw_z_from_p p lat] for [gsw.z_from_p] at one pressure.  So are the
    interpolation kinds of scipy other than the linear one:
    [fit_kind kind x y] stands for their fit, an evaluation method or an
    exception. *)
Variable gsw_distance : list float -> list float -> list float.
Variable gsw_z_from_p : float -> float -> float.
Variable fit_kind : string -> list float -> list float
                    -> result (float -> float).

(** [interp1d(x, y, kind=..., bounds_error=..., fill_value=...)] *)
Definition interp1d_kind (x y : list float) (kind : string)
    (bounds_error : bool) (fill_value : float) : result interp1d :=
  if String.eqb kind "linear" then
    interp1d_linear x y bounds_error fill_value
  else if negb (length x =? length y) then Raise ValueError
  else
    let p := sort_points (combine x y) in
    _call <- fit_kind kind (map fst p) (map snd p) ;;
    Ok {| ix := map fst p; iy := map snd p;
          bounds_error := bounds_error; fill_value := fill_value;
          call := _call |}.

(** Lines 152-153: the cumulated distances in km and the depths. *)
Definition topo_x (lon lat : list float) : list float :=
  fz 0 :: cumsum (map (fun d => (d / fz 1000)%float) (gsw_distance lon lat)).

Definition topo_h (h lat : list float) : list float :=
  map (fun p => (- gsw_z_from_p p (mean lat))%float) h.

(** Line 154: the interpolant [Ih] of the sea floor. *)
Definition topo_Ih (h lon lat : list float) (kind : string)
  : result interp1d :=
  let x := topo_x lon lat in
  let h := topo_h h lat in
  h_last <- getitem_last h ;;
  interp1d_kind x h kind false h_last.

(** [gen_topomask], lines 150-158 (the [plot] flag is not used by the
    function and is left out). *)
Definition gen_topomask (h lon lat : list float) (dx : float)
    (kind : string) : result (list float * list float) :=
  let x := topo_x lon lat in
  Ih <- topo_Ih h lon lat kind ;;
  x_max <- amax x ;;
  xm <- arange (fz 0) (x_max + dx)%float dx ;;
  hm <- mapM (interp1d_call Ih) xm ;;
  Ok (xm, hm).
End Topography.

(** * Predicates of the statements *)

(** The products [index * valid] of one station, level by level. *)
Definition station_depths (self : DataFrame) (s : nat) : list float :=
  map (fun p => (fst p * of_bool (notnull (nth s (snd p) NaN)))%float)
      (combine (index self) (values self)).

(** The mask of the valid entries of a row or column, as the loops of
    [extrap_sec] compute it. *)
Definition notnan_mask (line : list float) : list bool :=
  map (fun v => negb (isnan v)) line.

(** NaN or finite: the values of a profile. *)
Definition notinf (v : float) : bool := isnan v || isfinite v.

(** A finite value that is not negative. *)
Definition nonneg (a : float) : bool :=
  match a with
  | Fin q => negb (Qcltb q 0)
  | _ => false
  end.

(** No entry is followed by a smaller one, in the order numpy sorts by. *)
Fixpoint sortedb (l : list float) : bool :=
  match l with
  | a :: (b :: _) as l' => negb (np_ltb b a) && sortedb l'
  | _ => true
  end.

(** Every entry is finite and followed by a larger one. *)
Fixpoint increasingb (l : list float) : bool :=
  match l with
  | [] => true
  | a :: l' =>
      isfinite a
      && match l' with
         | [] => true
         | b :: _ => (a <? b)%float
         end
      && increasingb l'
  end.

Definition flt (a b : float) : Prop := (a <? b)%float = true.

(** Finite entries, each below all the later ones. *)
Definition increasing (l : list float) : Prop :=
  Forall (fun v => isfinite v = true) l /\ StronglySorted flt l.

(** The value of the extrapolant where it does not leave the fitted range to
    the interpolant. *)
Definition extrap1d_value (f : interp1d) (x : float) : float :=
  let xs := ix f in
  let ys := iy f in
  let n := length xs in
  if (x <? nth 0 xs NaN)%float then
    (nth 0 ys NaN
     + (nth 1 ys NaN - nth 0 ys NaN) / (nth 1 xs NaN - nth 0 xs NaN)
       * (x - nth 0 xs NaN))%float
  else if (nth (n - 1) xs NaN <? x)%float then
    (nth (n - 1) ys NaN
     + (nth (n - 1) ys NaN - nth (n - 2) ys NaN)
       / (nth (n - 1) xs NaN - nth (n - 2) xs NaN)
       * (x - nth (n - 1) xs NaN))%float
  else call f x.

(** The [i]-th resampled distance for the resolution [d]. *)
Definition grid_point (d : Qc) (i : nat) : float :=
  Fin (Q2Qc (inject_Z (Z.of_nat i)) * d)%Qc.

(** Equality tests on computed arrays and results. *)
Fixpoint list_eqb {A} (eqb : A -> A -> bool) (l m : list A) : bool :=
  match l, m with
  | [], [] => true
  | a :: l', b :: m' => eqb a b && list_eqb eqb l' m'
  | _, _ => false
  end.

Definition array_eqb : list float -> list float -> bool := list_eqb feqb.
Definition grid_eqb : list (list float) -> list (list float) -> bool :=
  list_eqb array_eqb.

Definition result_grid_eqb (r s : result (list (list float))) : bool :=
  match r, s with
  | Ok a, Ok b => grid_eqb a b
  | Raise IndexError, Raise IndexError => true
  | Raise ValueError, Raise ValueError => true
  | _, _ => false
  end.

(** The valid entries of a line lie between [lo] and [hi]. *)
Definition within (lo hi : Qc) (line : list float) : bool :=
  forallb (fun v => match v with
                    | NaN => true
                    | Inf _ => false
                    | Fin q => negb (Qcltb q lo) && negb (Qcltb hi q)
                    end) line.

(** Finite entries of magnitude at most [b]. *)
Definition bounded (b : Qc) (line : list float) : bool :=
  forallb isfinite line && within (- b) b line.

(** Finite entries, each followed by one that is larger by [1 / b] at
    least. *)
Fixpoint spacedb (b : Qc) (l : list float) : bool :=
  match l with
  | [] => true
  | a :: l' =>
      isfinite a
      && match l' with
         | [] => true
         | c :: _ => negb ((c - a) * Fin b <? fz 1)%float
         end
      && spacedb b l'
  end.

(** The largest finite [float64], [(2 - 2^-52) * 2^1023]: the arithmetic of
    [float64] turns a finite result into an infinity only above it. *)
Definition float_max : Qc := Q2Qc (inject_Z (2 ^ 1024 - 2 ^ 971)).

(** The bound of the lines through points of magnitude at most [b] that
    are [1 / b] apart at least, evaluated within the magnitude [b]. *)
Definition curve_bound (b : Qc) : Qc := Q2Qc (inject_Z 5) * (b * b * b).

(** A magnitude of at least 1 whose cube, sixteen times, is within the range
    of [float64]: the sums and products of the interpolation and of the
    blend, on values of that magnitude at most, then stay within the range
    with room for the rounding. *)
Definition moderate (b : Qc) : Prop :=
  (1 <= b)%Qc /\ (Q2Qc (inject_Z 16) * (b * b * b) <= float_max)%Qc.

(** [self.T[::-1].T], the table with its stations in reverse order, as
    [plot_section] builds it for [inverse=True] (line 221). *)
Definition reverse_stations (self : DataFrame) : DataFrame :=
  {| index := index self; values := map (@rev float) (values self) |}.

(** * Example sections *)

(** One station with the values [1, 2, NaN, 4, NaN] at the depths
    [10, 20, 30, 40, 50]. *)
Definition station_with_gap : DataFrame :=
  {| index := [fz 10; fz 20; fz 30; fz 40; fz 50];
     values := [[fz 1]; [fz 2]; [NaN]; [fz 4]; [NaN]] |}.

(** One station without any valid value. *)
Definition station_without_value : DataFrame :=
  {| index := [fz 10; fz 20];
     values := [[NaN]; [NaN]] |}.

(** Two levels and two stations, the second station without a value at the
    second level. *)
Definition grid_2x2 : list (list float) := [[fz 1; fz 2]; [fz 3; NaN]].
Definition axis_2 : list float := [fz 0; fz 1].

(** Two levels and two stations, the second station without any value. *)
Definition grid_empty_station : list (list float) := [[fz 1; NaN]; [fz 3; NaN]].

(** One level and three stations, the last two at the same distance and
    with the same value, the first without value. *)
Definition grid_tie : list (list float) := [[NaN; fz 5; fz 5]].
Definition dist_tie3 : list float := [fz 0; fz 1; fz 1].

(** Two levels and three stations, the middle station without value at the
    first level. *)
Definition grid_2x3 : list (list float) :=
  [[fz 1; NaN; fz 3]; [fz 4; fz 5; fz 6]].
Definition axis_3 : list float := [fz 0; fz 1; fz 2].

(** Two levels and five stations, the first station without value at the
    first level; in [dist_tie] the second and the third station are at the
    same distance. *)
Definition grid_2x5 : list (list float) :=
  [[NaN; fz 1; fz 2; fz 3; fz 4]; [fz 5; fz 6; fz 7; fz 8; fz 9]].
Definition dist_tie : list float := [fz 0; fz 1; fz 1; fz 2; fz 3].
Definition dist_5 : list float := [fz 0; fz 1; fz 2; fz 3; fz 4].
Definition depth_2 : list float := [fz 10; fz 20].

(** Two stations 2.5 km apart, at the pressures 10 and 20; the toolbox is
    replaced by a distance of 2500 m and by the height [-p], and no other
    kind of interpolation than the linear one is available. *)
Definition two_stations_distance (lon lat : list float) : list float :=
  [fz 2500].
Definition minus_pressure (p lat : float) : float := (- p)%float.
Definition no_other_kind (kind : string) (x y : list float)
  : result (float -> float) := Raise ValueError.

(** * Properties *)

(** ** Scalars *)

Lemma Qceqb_eq (a b : Qc) : Qceqb a b = true <-> a = b.
Proof.
  unfold Qceqb. rewrite Qceq_alt.
  destruct (a ?= b)%Qc; split; congruence.
Qed.

Lemma Qcltb_lt (a b : Qc) : Qcltb a b = true <-> (a < b)%Qc.
Proof.
  unfold Qcltb. rewrite Qclt_alt.
  destruct (a ?= b)%Qc; split; congruence.
Qed.

Lemma Qceqb_refl (a : Qc) : Qceqb a a = true.
Proof. now apply Qceqb_eq. Qed.

Lemma Qceqb_neq (a b : Qc) : Qceqb a b = false <-> a <> b.
Proof.
  rewrite <- Qceqb_eq. destruct (Qceqb a b); split; congruence.
Qed.

Lemma Qcltb_nlt (a b : Qc) : Qcltb a b = false <-> (b <= a)%Qc.
Proof.
  split; intros H.
  - apply Qcnot_lt_le. rewrite <- Qcltb_lt. congruence.
  - destruct (Qcltb a b) eqn:E; [|reflexivity].
    apply Qcltb_lt in E. now apply Qcle_not_lt in H.
Qed.

(** Facts on [Qc] are moved to [Q], where [lra] decides them. *)
Lemma this_plus (a b : Qc) : (this (a + b) == this a + this b)%Q.
Proof. apply Qred_correct. Qed.

Lemma this_mult (a b : Qc) : (this (a * b) == this a * this b)%Q.
Proof. apply Qred_correct. Qed.

Lemma this_opp (a : Qc) : (this (- a) == - this a)%Q.
Proof. apply Qred_correct. Qed.

Lemma this_minus (a b : Qc) : (this (a - b) == this a - this b)%Q.
Proof. unfold Qcminus. rewrite this_plus, this_opp. reflexivity. Qed.

Lemma this_Q2Qc (q : Q) : (this (Q2Qc q) == q)%Q.
Proof. apply Qred_correct. Qed.

Lemma Qc_eq_this (a b : Qc) : a = b <-> (this a == this b)%Q.
Proof. split; [intros ->; reflexivity | apply Qc_is_canon]. Qed.

Ltac qc2q_step :=
  match goal with
  | H : @eq Qc _ _ |- _ => apply Qc_eq_this in H
  | H : ~ @eq Qc _ _ |- _ => rewrite Qc_eq_this in H
  | |- @eq Qc _ _ => apply Qc_is_canon
  | |- ~ @eq Qc _ _ => rewrite Qc_eq_this
  | H : context [this (?a - ?b)%Qc] |- _ => rewrite (this_minus a b) in H
  | H : context [this (?a + ?b)%Qc] |- _ => rewrite (this_plus a b) in H
  | H : context [this (?a * ?b)%Qc] |- _ => rewrite (this_mult a b) in H
  | H : context [this (- ?a)%Qc] |- _ => rewrite (this_opp a) in H
  | H : context [this (Q2Qc ?a)] |- _ => rewrite (this_Q2Qc a) in H
  | |- context [this (?a - ?b)%Qc] => rewrite (this_minus a b)
  | |- context [this (?a + ?b)%Qc] => rewrite (this_plus a b)
  | |- context [this (?a * ?b)%Qc] => rewrite (this_mult a b)
  | |- context [this (- ?a)%Qc] => rewrite (this_opp a)
  | |- context [this (Q2Qc ?a)] => rewrite (this_Q2Qc a)
  end.

Ltac qc2q := unfold Qclt, Qcle in *; repeat qc2q_step.
Ltac qc_lra := qc2q; lra.

(** Structural equality of scalars, with NaN equal to itself, decides
    equality of computed values. *)
Lemma feqb_eq (a b : float) : feqb a b = true <-> a = b.
Proof.
  destruct a as [|s|p], b as [|t|q]; simpl; split; try congruence.
  - intros H. apply eqb_prop in H. congruence.
  - intros H. injection H as ->. apply eqb_reflx.
  - intros H. apply Qceqb_eq in H. congruence.
  - intros H. injection H as ->. apply Qceqb_refl.
Qed.

Lemma list_eqb_eq {A} (eqb : A -> A -> bool) :
  (forall a b, eqb a b = true <-> a = b) ->
  forall l m, list_eqb eqb l m = true <-> l = m.
Proof.
  intros Heq. induction l as [|a l IH]; destruct m as [|b m]; simpl;
    split; try congruence.
  - intros H. apply andb_prop in H as [H1 H2].
    apply Heq in H1. apply IH in H2. congruence.
  - intros H. injection H as -> ->. apply andb_true_intro. split.
    + now apply Heq.
    + now apply IH.
Qed.

Lemma array_eqb_eq (l m : list float) : array_eqb l m = true <-> l = m.
Proof. apply list_eqb_eq, feqb_eq. Qed.

Lemma grid_eqb_eq (l m : list (list float)) : grid_eqb l m = true <-> l = m.
Proof. apply list_eqb_eq, array_eqb_eq. Qed.

Lemma isfinite_Fin (a : float) : isfinite a = true -> exists q, a = Fin q.
Proof. destruct a; simpl; try discriminate. eauto. Qed.

Lemma fmul_nan_l (a : float) : (NaN * a)%float = NaN.
Proof. reflexivity. Qed.

Lemma fmul_nan_r (a : float) : (a * NaN)%float = NaN.
Proof. now destruct a. Qed.

Lemma fadd_nan_l (a : float) : (NaN + a)%float = NaN.
Proof. reflexivity. Qed.

Lemma fadd_nan_r (a : float) : (a + NaN)%float = NaN.
Proof. now destruct a. Qed.

(** ** Lists and the exception monad *)

Lemma mapM_Ok_inv {A B} (f : A -> result B) (l : list A) (bs : list B) :
  mapM f l = Ok bs ->
  length bs = length l /\
  forall i da db, i < length l -> f (nth i l da) = Ok (nth i bs db).
Proof.
  revert bs. induction l as [|a l IH]; simpl; intros bs H.
  - injection H as <-. split; [reflexivity | intros; lia].
  - destruct (f a) as [b|e] eqn:Ea; simpl in H; [|discriminate].
    destruct (mapM f l) as [bs'|e] eqn:El; simpl in H; [|discriminate].
    injection H as <-. destruct (IH bs' eq_refl) as [Hlen Hnth].
    split; [simpl; congruence|].
    intros [|i] da db Hi; simpl; [assumption|].
    apply Hnth. lia.
Qed.

Lemma mapM_total {A B} (f : A -> result B) (l : list A) :
  (forall a, In a l -> exists b, f a = Ok b) ->
  exists bs, mapM f l = Ok bs.
Proof.
  induction l as [|a l IH]; simpl; intros H; [eauto|].
  destruct (H a (or_introl eq_refl)) as [b ->].
  destruct IH as [bs ->]; [intros; apply H; now right|].
  simpl. eauto.
Qed.

Lemma mapM_Ok_map {A B} (f : A -> result B) (g : A -> B) (l : list A) :
  (forall a, In a l -> f a = Ok (g a)) -> mapM f l = Ok (map g l).
Proof.
  induction l as [|a l IH]; simpl; intros H; [reflexivity|].
  rewrite (H a (or_introl eq_refl)), IH; [reflexivity|].
  intros; apply H; now right.
Qed.

(** ** Arrays *)

Lemma length_transpose {A} (d : A) (a : list (list A)) :
  length (transpose d a) = ncols a.
Proof. unfold transpose. now rewrite length_map, length_seq. Qed.

Lemma nth_transpose {A} (d : A) (a : list (list A)) (j : nat) :
  j < ncols a ->
  nth j (transpose d a) [] = map (fun r => nth j r d) a.
Proof.
  intros Hj. unfold transpose.
  rewrite (nth_indep _ [] (map (fun r => nth 0 r d) a))
    by now rewrite length_map, length_seq.
  rewrite (map_nth (fun j => map (fun r => nth j r d) a) (seq 0 (ncols a)) 0).
  now rewrite seq_nth.
Qed.

Lemma rect_ncols {A} (n : nat) (a : list (list A)) :
  rect n a -> a <> [] -> ncols a = n.
Proof.
  intros H Ha. destruct a as [|r a]; [congruence|].
  simpl. now inversion H.
Qed.

Lemma rect_nth {A} (n : nat) (a : list (list A)) (i : nat) :
  rect n a -> i < length a -> length (nth i a []) = n.
Proof.
  intros H Hi. unfold rect in H. rewrite Forall_forall in H.
  apply H, nth_In, Hi.
Qed.

Lemma compress_filter {A} (p : A -> bool) (l : list A) :
  compress (map p l) l = filter p l.
Proof.
  induction l as [|a l IH]; simpl; [reflexivity|].
  destruct (p a); now rewrite IH.
Qed.

Lemma length_compress {A B} (mask : list bool) (a : list A) (b : list B) :
  length a = length b ->
  length (compress mask a) = length (compress mask b).
Proof.
  revert a b. induction mask as [|m mask IH]; intros [|u a] [|v b] H;
    simpl in *; try reflexivity; try discriminate.
  destruct m; simpl; auto.
Qed.

Lemma existsb_id_filter {A} (p : A -> bool) (l : list A) :
  existsb (fun b => b) (map p l) = negb (length (filter p l) =? 0).
Proof.
  induction l as [|a l IH]; simpl; [reflexivity|].
  destruct (p a); simpl; [reflexivity | assumption].
Qed.

Lemma np_repeat_one {A} (v : A) (n : nat) : np_repeat [v] n = repeat v n.
Proof. unfold np_repeat. simpl. apply app_nil_r. Qed.

(** ** get_maxdepth *)

Lemma mul_arrays_Ok (a b : list float) :
  length a = length b ->
  mul_arrays a b
  = Ok (map (fun p => (fst p * snd p)%float) (combine a b)).
Proof.
  revert b. induction a as [|u a IH]; intros [|v b] H; simpl in *;
    try reflexivity; try discriminate.
  rewrite IH by lia. reflexivity.
Qed.

Lemma combine_map_r {A B C} (f : B -> C) (a : list A) (b : list B) :
  combine a (map f b) = map (fun p => (fst p, f (snd p))) (combine a b).
Proof.
  revert b. induction a as [|u a IH]; intros [|v b]; simpl; try reflexivity.
  now rewrite IH.
Qed.

Lemma get_maxdepth_stations (self : DataFrame) (n : nat) :
  index self <> [] ->
  length (values self) = length (index self) ->
  rect n (values self) ->
  exists h, get_maxdepth self = Ok h /\ length h = n /\
    forall s, s < n -> amax (station_depths self s) = Ok (nth s h NaN).
Proof.
  intros Hne Hlen Hrect.
  destruct self as [idx vals]; simpl in *.
  assert (Hvne : vals <> []) by (intros ->; destruct idx; simpl in *; congruence).
  assert (Hnc : ncols (map (map notnull) vals) = n).
  { destruct vals as [|r vals]; [congruence|]. simpl.
    rewrite length_map. now inversion Hrect. }
  set (prod_of := fun m : list bool =>
         map (fun p => (fst p * snd p)%float) (combine idx (map of_bool m))).
  set (max_of := fun row : list float =>
         fold_left fmax (tl row) (hd NaN row)).
  exists (map max_of (map prod_of (transpose false (map (map notnull) vals)))).
  assert (Hin : forall m, In m (transpose false (map (map notnull) vals)) ->
                          length m = length idx).
  { intros m Hm. unfold transpose in Hm. apply in_map_iff in Hm as (j & <- & _).
    now rewrite !length_map. }
  split; [|split].
  - unfold get_maxdepth; simpl.
    rewrite (mapM_Ok_map _ prod_of).
    + simpl. apply mapM_Ok_map. intros row Hrow.
      apply in_map_iff in Hrow as (m & <- & Hm). apply Hin in Hm.
      unfold prod_of, max_of.
      destruct idx as [|d idx]; [congruence|].
      destruct m as [|b m]; [discriminate|]. reflexivity.
    + intros m Hm. apply mul_arrays_Ok. rewrite length_map.
      symmetry. now apply Hin.
  - now rewrite !length_map, length_transpose.
  - intros s Hs.
    rewrite (nth_indep _ NaN (max_of (prod_of [])))
      by now rewrite !length_map, length_transpose, Hnc.
    rewrite (map_nth max_of), (map_nth prod_of).
    rewrite nth_transpose by now rewrite Hnc.
    unfold station_depths; simpl. rewrite map_map.
    assert (E : prod_of (map (fun r => nth s (map notnull r) false) vals)
                = map (fun p => (fst p * of_bool (notnull (nth s (snd p) NaN)))%float)
                      (combine idx vals)).
    { unfold prod_of. rewrite map_map, combine_map_r, map_map.
      apply map_ext. intros [d r]; simpl.
      now rewrite <- (map_nth notnull r NaN s). }
    rewrite E. unfold max_of.
    destruct (combine idx vals) as [|p l] eqn:Ec; [|reflexivity].
    destruct idx, vals; simpl in *; congruence.
Qed.

Lemma fold_left_fmax_const (c : Qc) (l : list float) :
  Forall (fun v => v = Fin c) l -> fold_left fmax l (Fin c) = Fin c.
Proof.
  induction 1 as [|v l -> _ IH]; simpl; [reflexivity|].
  destruct (Qcltb c c); exact IH.
Qed.

(** C2, as stated, fails: on the station with the values
    [1, 2, NaN, 4, NaN] at the depths [10, 20, 30, 40, 50], [get_maxdepth]
    does not return the depth 20. *)
Lemma get_maxdepth_gap_not_20 :
  get_maxdepth station_with_gap <> Ok [fz 20].
Proof.
  intros H. vm_compute in H. discriminate H.
Qed.

(** C2, amended: on the station with the values [1, 2, NaN, 4, NaN] at the
    depths [10, 20, 30, 40, 50], [get_maxdepth] returns the depth 40, the
    depth of the deepest valid entry (the value 4): a gap above it does not
    end the scan. *)
Theorem get_maxdepth_gap_40 :
  get_maxdepth station_with_gap = Ok [fz 40].
Proof. vm_compute. reflexivity. Qed.

(** C3, as stated, fails: a station without any valid value gets the depth
    0, which is not NaN. *)
Lemma get_maxdepth_no_value_not_nan :
  exists d, get_maxdepth station_without_value = Ok [d] /\ isnan d = false.
Proof. exists (fz 0). split; vm_compute; reflexivity. Qed.

(** C3, amended: for every station whose variable has no valid value, over
    at least one depth level and finite depths, [get_maxdepth] yields the
    depth 0 for that station (the products of the depths by the validity
    flags are all 0), not NaN. *)
Theorem get_maxdepth_no_valid_value (self : DataFrame) (n s : nat) :
  index self <> [] ->
  Forall (fun d => isfinite d = true) (index self) ->
  length (values self) = length (index self) ->
  rect n (values self) ->
  s < n ->
  Forall (fun r => isnan (nth s r NaN) = true) (values self) ->
  exists h, get_maxdepth self = Ok h /\ length h = n /\ nth s h NaN = fz 0.
Proof.
  intros Hne Hfin Hlen Hrect Hs Hnan.
  destruct (get_maxdepth_stations self Hne Hlen Hrect) as (h & Hh & Hl & Hst).
  exists h. split; [assumption|]. split; [assumption|].
  specialize (Hst s Hs).
  assert (Hz : Forall (fun v => v = Fin 0%Qc) (station_depths self s)).
  { unfold station_depths. apply Forall_forall. intros v Hv.
    apply in_map_iff in Hv as ([d r] & <- & Hp). simpl.
    pose proof (in_combine_l _ _ _ _ Hp) as Hd.
    pose proof (in_combine_r _ _ _ _ Hp) as Hr.
    rewrite Forall_forall in Hfin, Hnan.
    apply Hfin, isfinite_Fin in Hd as [q ->].
    unfold notnull. rewrite (Hnan r Hr). simpl. f_equal.
    change (Q2Qc (inject_Z 0)) with 0%Qc. ring. }
  destruct (station_depths self s) as [|v l] eqn:E.
  - simpl in Hst. discriminate.
  - simpl in Hst. inversion Hz as [|? ? Hv Hl']; subst.
    rewrite fold_left_fmax_const in Hst by assumption.
    injection Hst as <-. reflexivity.
Qed.

(** The theorem on the station without value. *)
Lemma get_maxdepth_no_valid_value_witness :
  exists h, get_maxdepth station_without_value = Ok h /\ length h = 1
            /\ nth 0 h NaN = fz 0.
Proof.
  apply (@get_maxdepth_no_valid_value station_without_value 1 0).
  - discriminate.
  - repeat constructor.
  - reflexivity.
  - repeat constructor.
  - lia.
  - repeat constructor.
Defined.

(** ** extrap_sec: shapes and exceptions *)

Lemma hd_nth0 {A} (d : A) (l : list A) : hd d l = nth 0 l d.
Proof. now destruct l. Qed.

Lemma last_nth {A} (d : A) (l : list A) : last l d = nth (length l - 1) l d.
Proof.
  induction l as [|a l IH]; [reflexivity|].
  destruct l as [|b l]; [reflexivity|].
  change (last (a :: b :: l) d) with (last (b :: l) d). rewrite IH.
  simpl. now rewrite Nat.sub_0_r.
Qed.

(** The extrapolant never lets the interpolant see a point out of its
    range, so it never raises. *)
Lemma extrap1d_Ok (f : interp1d) (x : float) :
  extrap1d f x = Ok (extrap1d_value f x).
Proof.
  unfold extrap1d, extrap1d_value, interp1d_call.
  rewrite hd_nth0, last_nth.
  destruct (x <? nth 0 (ix f) NaN)%float; [reflexivity|].
  destruct (nth (length (ix f) - 1) (ix f) NaN <? x)%float; reflexivity.
Qed.

Lemma length_filter_compress {A B} (p : A -> bool) (l : list A) (a : list B) :
  length a = length l ->
  length (compress (map p l) a) = length (filter p l).
Proof.
  intros H. rewrite <- compress_filter.
  apply length_compress. now rewrite H.
Qed.

Lemma interp1d_linear_Ok (x y : list float) (be : bool) (fv : float) :
  length x = length y -> 2 <= length x ->
  exists f, interp1d_linear x y be fv = Ok f /\
    ix f = map fst (sort_points (combine x y)) /\
    iy f = map snd (sort_points (combine x y)) /\
    call f = call_linear (ix f) (iy f).
Proof.
  intros Hl H2. unfold interp1d_linear.
  rewrite Hl, Nat.eqb_refl. simpl.
  destruct (length y <? 2) eqn:E; [apply Nat.ltb_lt in E; lia|].
  eexists; split; [reflexivity|]. simpl. auto.
Qed.

(** The three cases of the loop body. *)
Lemma extrap_line_none (axis line : list float) :
  valid line = [] -> extrap_line axis line = Ok line.
Proof.
  intros H. unfold extrap_line.
  now rewrite existsb_id_filter; fold (valid line); rewrite H.
Qed.

Lemma extrap_line_one (axis line : list float) (v : float) :
  valid line = [v] ->
  extrap_line axis line = Ok (repeat v (length line)).
Proof.
  intros H. unfold extrap_line.
  rewrite existsb_id_filter, compress_filter. fold (valid line). rewrite H.
  cbn [length Nat.eqb negb]. now rewrite np_repeat_one, length_map.
Qed.

Lemma extrap_line_many (axis line : list float) :
  length axis = length line -> 2 <= length (valid line) ->
  exists f,
    interp1d_linear (compress (map (fun v => negb (isnan v)) line) axis)
                    (valid line) true NaN = Ok f /\
    ix f = map fst (sort_points
             (combine (compress (map (fun v => negb (isnan v)) line) axis)
                      (valid line))) /\
    iy f = map snd (sort_points
             (combine (compress (map (fun v => negb (isnan v)) line) axis)
                      (valid line))) /\
    call f = call_linear (ix f) (iy f) /\
    extrap_line axis line = Ok (map (extrap1d_value f) axis).
Proof.
  intros Hl H2.
  set (mask := map (fun v => negb (isnan v)) line).
  assert (Hx : length (compress mask axis) = length (valid line)).
  { unfold mask, valid. now apply length_filter_compress. }
  destruct (@interp1d_linear_Ok (compress mask axis) (valid line) true NaN)
    as (f & Hf & Hix & Hiy & Hcall); [assumption | lia |].
  exists f. repeat (split; [assumption|]).
  assert (E0 : (length (valid line) =? 0) = false) by (apply Nat.eqb_neq; lia).
  assert (E1 : (length (valid line) =? 1) = false) by (apply Nat.eqb_neq; lia).
  unfold extrap_line. cbv zeta.
  rewrite existsb_id_filter, compress_filter. fold (valid line).
  rewrite E0, E1. cbn [negb]. unfold getitem_mask.
  rewrite length_map, Hl, Nat.eqb_refl. fold mask. cbn [bind].
  rewrite Hf. cbn [bind]. apply mapM_Ok_map. intros; apply extrap1d_Ok.
Qed.

Lemma valid_cases (line : list float) :
  valid line = [] \/ (exists v, valid line = [v]) \/ 2 <= length (valid line).
Proof.
  destruct (valid line) as [|v [|w l]]; simpl; eauto.
  right; right; lia.
Qed.

(** With an axis of the length of the line, the loop body returns a line of
    that length. *)
Lemma extrap_line_total (axis line : list float) :
  length axis = length line ->
  exists r, extrap_line axis line = Ok r /\ length r = length line.
Proof.
  intros Hl. destruct (valid_cases line) as [H | [[v H] | H]].
  - exists line. split; [now apply extrap_line_none | reflexivity].
  - exists (repeat v (length line)).
    split; [now apply extrap_line_one | apply repeat_length].
  - destruct (extrap_line_many axis line Hl H) as (f & _ & _ & _ & _ & Hr).
    exists (map (extrap1d_value f) axis).
    split; [assumption | now rewrite length_map].
Qed.

Lemma nth_nil {A} (d : A) (i : nat) : nth i [] d = d.
Proof. now destruct i. Qed.

Lemma nth_nth_transpose {A} (d : A) (a : list (list A)) (i j : nat) :
  i < ncols a -> j < length a ->
  nth j (nth i (transpose d a) []) d = nth i (nth j a []) d.
Proof.
  intros Hi Hj. rewrite nth_transpose by assumption.
  rewrite (nth_indep _ d (nth i [] d)) by now rewrite length_map.
  rewrite (map_nth (fun r => nth i r d)). reflexivity.
Qed.

Lemma nth_blend (a b : list (list float)) (w1 w2 : float) (i j : nat) :
  length a = length b -> i < length a ->
  length (nth i a []) = length (nth i b []) -> j < length (nth i a []) ->
  nth j (nth i (blend a b w1 w2) []) NaN
  = (nth j (nth i a []) NaN * w1 + nth j (nth i b []) NaN * w2)%float.
Proof.
  intros Hab Hi Hrow Hj. unfold blend.
  set (G := fun uv : float * float => (fst uv * w1 + snd uv * w2)%float).
  set (F := fun rs : list float * list float =>
              map G (combine (fst rs) (snd rs))).
  rewrite (nth_indep _ [] (F ([], [])))
    by now rewrite length_map, length_combine, <- Hab, Nat.min_id.
  rewrite (map_nth F), combine_nth by assumption.
  unfold F; simpl.
  rewrite (nth_indep _ NaN (G (NaN, NaN)))
    by now rewrite length_map, length_combine, <- Hrow, Nat.min_id.
  rewrite (map_nth G), combine_nth by assumption.
  reflexivity.
Qed.

Lemma length_blend (a b : list (list float)) (w1 w2 : float) :
  length a = length b -> length (blend a b w1 w2) = length a.
Proof.
  intros H. unfold blend.
  now rewrite length_map, length_combine, <- H, Nat.min_id.
Qed.

Lemma length_nth_blend (a b : list (list float)) (w1 w2 : float) (i : nat) :
  length a = length b -> i < length a ->
  length (nth i a []) = length (nth i b []) ->
  length (nth i (blend a b w1 w2) []) = length (nth i a []).
Proof.
  intros Hab Hi Hrow. unfold blend.
  set (F := fun rs : list float * list float =>
              map (fun uv => (fst uv * w1 + snd uv * w2)%float)
                  (combine (fst rs) (snd rs))).
  rewrite (nth_indep _ [] (F ([], [])))
    by now rewrite length_map, length_combine, <- Hab, Nat.min_id.
  rewrite (map_nth F), combine_nth by assumption.
  unfold F; simpl.
  now rewrite length_map, length_combine, <- Hrow, Nat.min_id.
Qed.

Lemma well_shaped_ncols (data : list (list float)) (dist depth : list float) :
  well_shaped data dist depth -> ncols data = length dist.
Proof. intros (Hne & _ & Hrect & _). now apply rect_ncols. Qed.

Lemma row_pass_total (data : list (list float)) (dist depth : list float) :
  well_shaped data dist depth ->
  exists nd1, row_pass data dist = Ok nd1 /\ length nd1 = length data /\
    forall i, i < length data ->
      extrap_line dist (nth i data []) = Ok (nth i nd1 []) /\
      length (nth i nd1 []) = length dist.
Proof.
  intros (Hne & _ & Hrect & Hdepth). unfold row_pass.
  destruct (mapM_total (extrap_line dist) data) as [nd1 Hnd1].
  { intros row Hrow. unfold rect in Hrect. rewrite Forall_forall in Hrect.
    destruct (@extrap_line_total dist row) as (r & Hr & _); eauto.
    symmetry. now apply Hrect. }
  exists nd1. split; [assumption|].
  destruct (mapM_Ok_inv _ _ Hnd1) as [Hlen Hnth].
  split; [assumption|]. intros i Hi.
  specialize (Hnth i [] [] Hi). split; [assumption|].
  destruct (@extrap_line_total dist (nth i data [])) as (r & Hr & Hlr).
  { symmetry. now apply rect_nth. }
  rewrite Hr in Hnth. injection Hnth as <-.
  rewrite Hlr. now apply rect_nth.
Qed.

Lemma col_pass_total (data : list (list float)) (dist depth : list float) :
  well_shaped data dist depth ->
  exists nd2, col_pass data depth = Ok nd2 /\ length nd2 = length dist /\
    forall j, j < length dist ->
      extrap_line depth (column j data) = Ok (nth j nd2 []) /\
      length (nth j nd2 []) = length data.
Proof.
  intros Hws. pose proof (well_shaped_ncols Hws) as Hnc.
  destruct Hws as (Hne & _ & Hrect & Hdepth). unfold col_pass.
  destruct (mapM_total (extrap_line depth) (transpose NaN data)) as [nd2 Hnd2].
  { intros col Hcol. unfold transpose in Hcol.
    apply in_map_iff in Hcol as (j & <- & _).
    destruct (@extrap_line_total depth (map (fun r => nth j r NaN) data))
      as (r & Hr & _); eauto.
    now rewrite length_map. }
  exists nd2. split; [assumption|].
  destruct (mapM_Ok_inv _ _ Hnd2) as [Hlen Hnth].
  rewrite length_transpose, Hnc in Hlen, Hnth.
  split; [assumption|]. intros j Hj.
  specialize (Hnth j [] [] Hj).
  rewrite nth_transpose in Hnth by now rewrite Hnc.
  fold (column j data) in Hnth. split; [assumption|].
  destruct (@extrap_line_total depth (column j data)) as (r & Hr & Hlr).
  { unfold column. now rewrite length_map. }
  rewrite Hr in Hnth. injection Hnth as <-.
  rewrite Hlr. unfold column. now rewrite length_map.
Qed.

(** On a well-shaped grid both passes return, the result has the shape of
    the grid, and its entry at level [i] and station [j] is the entry of
    [new_data1] there times [w1] plus the entry of station [j] and level [i]
    of [new_data2] times [w2]. *)
Lemma extrap_sec_spec (data : list (list float)) (dist depth : list float)
    (w1 w2 : float) :
  well_shaped data dist depth ->
  exists nd1 nd2 out,
    row_pass data dist = Ok nd1 /\ col_pass data depth = Ok nd2 /\
    extrap_sec data dist depth w1 w2 = Ok out /\
    length out = length data /\
    forall i, i < length data ->
      length (nth i out []) = length dist /\
      forall j, j < length dist ->
        nth j (nth i out []) NaN
        = (nth j (nth i nd1 []) NaN * w1 + nth i (nth j nd2 []) NaN * w2)%float.
Proof.
  intros Hws.
  destruct (row_pass_total Hws) as (nd1 & H1 & Hl1 & Hr1).
  destruct (col_pass_total Hws) as (nd2 & H2 & Hl2 & Hr2).
  assert (Hne : data <> []) by apply Hws.
  assert (Hpos : 0 < length data) by (destruct data; simpl; [congruence|lia]).
  assert (Hne2 : nd2 <> []).
  { destruct Hws as (_ & Hd & _). destruct nd2, dist; simpl in *; congruence. }
  assert (Hnc2 : ncols nd2 = length data).
  { destruct nd2 as [|c nd2]; [congruence|]. simpl.
    destruct (Hr2 0) as [_ Hc]; [simpl in Hl2; lia|]. exact Hc. }
  assert (Hlt : length nd1 = length (transpose NaN nd2))
    by now rewrite length_transpose, Hnc2.
  assert (Hrow : forall i, i < length data ->
            length (nth i nd1 []) = length (nth i (transpose NaN nd2) [])).
  { intros i Hi. rewrite nth_transpose by now rewrite Hnc2.
    rewrite length_map, Hl2. now apply Hr1. }
  exists nd1, nd2, (blend nd1 (transpose NaN nd2) w1 w2).
  split; [assumption|]. split; [assumption|].
  unfold extrap_sec. rewrite H1, H2. cbn [bind].
  split; [reflexivity|].
  split; [now rewrite length_blend|].
  intros i Hi. split.
  - rewrite length_nth_blend; auto; try lia. now apply Hr1.
  - intros j Hj. rewrite nth_blend; auto; try lia.
    + rewrite nth_nth_transpose; [reflexivity | now rewrite Hnc2 | lia].
    + destruct (Hr1 i Hi) as [_ ->]. exact Hj.
Qed.

Lemma result_grid_eqb_eq (r s : result (list (list float))) :
  result_grid_eqb r s = true <-> r = s.
Proof.
  destruct r as [a|[]], s as [b|[]]; simpl; split; try congruence.
  - intros H. apply grid_eqb_eq in H. congruence.
  - intros H. injection H as ->. now apply grid_eqb_eq.
Qed.

Lemma valid_nil_nan (line : list float) :
  valid line = [] -> Forall (fun v => v = NaN) line.
Proof.
  unfold valid. induction line as [|v line IH]; simpl; intros H.
  - constructor.
  - destruct v; simpl in H; try discriminate. constructor; auto.
Qed.

Lemma Forall_nth_nan (line : list float) (i : nat) :
  Forall (fun v => v = NaN) line -> nth i line NaN = NaN.
Proof.
  intros H. destruct (Nat.lt_ge_cases i (length line)) as [Hi | Hi].
  - rewrite Forall_forall in H. apply H, nth_In, Hi.
  - now apply nth_overflow.
Qed.

(** ** extrap_sec: the blend *)

Ltac shape := repeat split; try discriminate; repeat constructor.

(** C1, as stated, fails: with [w1 = 1] and [w2 = 0] the result on the grid
    [[1, 2], [3, NaN]] is not the column pass (the claimed [w1] times the
    column pass plus [w2] times the row pass). *)
Lemma extrap_sec_not_w1_columns :
  exists nd1 nd2,
    row_pass grid_2x2 axis_2 = Ok nd1 /\
    col_pass grid_2x2 axis_2 = Ok nd2 /\
    extrap_sec grid_2x2 axis_2 axis_2 (fz 1) (fz 0)
    <> Ok (blend (transpose NaN nd2) nd1 (fz 1) (fz 0)).
Proof.
  eexists. eexists.
  split; [vm_compute; reflexivity|].
  split; [vm_compute; reflexivity|].
  intros H. apply result_grid_eqb_eq in H. vm_compute in H. discriminate H.
Qed.

(** On that grid the result is the row pass, [[1, 2], [3, 3]], and the
    column pass is [[1, 2], [3, 2]]. *)
Example extrap_sec_grid_2x2 :
  extrap_sec grid_2x2 axis_2 axis_2 (fz 1) (fz 0)
  = Ok [[fz 1; fz 2]; [fz 3; fz 3]] /\
  col_pass grid_2x2 axis_2 = Ok [[fz 1; fz 3]; [fz 2; fz 2]].
Proof.
  split; apply result_grid_eqb_eq; vm_compute; reflexivity.
Qed.

(** C1, amended: on every well-shaped grid [extrap_sec] returns the
    elementwise combination [w1] times the along-depth pass (the per-row
    pass fitted against the distance axis) plus [w2] times the
    along-station pass (the per-column pass fitted against the depth axis):
    [w1] weights the row pass and [w2] the column pass. *)
Theorem extrap_sec_weights (data : list (list float)) (dist depth : list float)
    (w1 w2 : float) :
  well_shaped data dist depth ->
  exists out,
    extrap_sec data dist depth w1 w2 = Ok out /\
    length out = length data /\
    forall i j, i < length data -> j < length dist ->
      exists row col,
        extrap_line dist (nth i data []) = Ok row /\
        extrap_line depth (column j data) = Ok col /\
        nth j (nth i out []) NaN
        = (nth j row NaN * w1 + nth i col NaN * w2)%float.
Proof.
  intros Hws.
  destruct (extrap_sec_spec w1 w2 Hws)
    as (nd1 & nd2 & out & H1 & H2 & Hout & Hlen & Hnth).
  destruct (row_pass_total Hws) as (nd1' & H1' & _ & Hr1).
  destruct (col_pass_total Hws) as (nd2' & H2' & _ & Hr2).
  rewrite H1 in H1'. injection H1' as <-.
  rewrite H2 in H2'. injection H2' as <-.
  exists out. split; [assumption|]. split; [assumption|].
  intros i j Hi Hj. exists (nth i nd1 []), (nth j nd2 []).
  split; [now apply Hr1|]. split; [now apply Hr2|].
  now apply Hnth.
Qed.

(** The theorem on the grid [[1, 2], [3, NaN]] with the weights 1 and 0. *)
Lemma extrap_sec_weights_witness :
  exists out,
    extrap_sec grid_2x2 axis_2 axis_2 (fz 1) (fz 0) = Ok out /\
    length out = length grid_2x2 /\
    forall i j, i < length grid_2x2 -> j < length axis_2 ->
      exists row col,
        extrap_line axis_2 (nth i grid_2x2 []) = Ok row /\
        extrap_line axis_2 (column j grid_2x2) = Ok col /\
        nth j (nth i out []) NaN
        = (nth j row NaN * fz 1 + nth i col NaN * fz 0)%float.
Proof.
  apply (@extrap_sec_weights grid_2x2 axis_2 axis_2 (fz 1) (fz 0)).
  shape.
Defined.

(** ** extrap_sec: rows and columns with one or no valid value *)

Lemma all_nan_repeat (line : list float) :
  Forall (fun v => v = NaN) line -> line = repeat NaN (length line).
Proof.
  induction 1 as [|v l Hv _ IH]; simpl; [reflexivity|].
  now rewrite Hv, <- IH.
Qed.

Lemma nth_repeat_nan (n j : nat) : nth j (repeat NaN n) NaN = NaN.
Proof.
  revert j. induction n as [|n IH]; intros [|j]; simpl; auto.
Qed.

(** C5: on every well-shaped grid, a row with exactly one valid value [v],
    wherever it stands, becomes the row of [v]s in the row pass, and a
    column with exactly one valid value [v] becomes the column of [v]s in
    the column pass. *)
Theorem extrap_sec_single_value (data : list (list float))
    (dist depth : list float) :
  well_shaped data dist depth ->
  (exists new_data1, row_pass data dist = Ok new_data1 /\
     forall i v, i < length data -> valid (nth i data []) = [v] ->
       nth i new_data1 [] = repeat v (length dist)) /\
  (exists new_data2, col_pass data depth = Ok new_data2 /\
     forall j v, j < length dist -> valid (column j data) = [v] ->
       nth j new_data2 [] = repeat v (length data)).
Proof.
  intros Hws. split.
  - destruct (row_pass_total Hws) as (nd1 & H1 & _ & Hr1).
    exists nd1. split; [assumption|]. intros i v Hi Hv.
    destruct (Hr1 i Hi) as [Hr _].
    rewrite (extrap_line_one dist _ Hv) in Hr. injection Hr as <-.
    f_equal. destruct Hws as (_ & _ & Hrect & _). now apply rect_nth.
  - destruct (col_pass_total Hws) as (nd2 & H2 & _ & Hr2).
    exists nd2. split; [assumption|]. intros j v Hj Hv.
    destruct (Hr2 j Hj) as [Hr _].
    rewrite (extrap_line_one depth _ Hv) in Hr. injection Hr as <-.
    f_equal. unfold column. now rewrite length_map.
Qed.

(** The theorem on the grid [[1, 2], [3, NaN]], whose second level and
    second station have one valid value each. *)
Lemma extrap_sec_single_value_witness :
  (exists new_data1, row_pass grid_2x2 axis_2 = Ok new_data1 /\
     forall i v, i < length grid_2x2 -> valid (nth i grid_2x2 []) = [v] ->
       nth i new_data1 [] = repeat v (length axis_2)) /\
  (exists new_data2, col_pass grid_2x2 axis_2 = Ok new_data2 /\
     forall j v, j < length axis_2 -> valid (column j grid_2x2) = [v] ->
       nth j new_data2 [] = repeat v (length grid_2x2)).
Proof.
  apply (@extrap_sec_single_value grid_2x2 axis_2 axis_2).
  shape.
Defined.

(** C6: on every well-shaped grid with a row or a column without any valid
    point, [extrap_sec] returns a grid of the shape of its input and raises
    nothing; the row is left as it is, all NaN, in the row pass (the column
    in the column pass), and the returned grid is NaN at every station of
    that row (at every level of that column). *)
Theorem extrap_sec_no_valid_point (data : list (list float))
    (dist depth : list float) (w1 w2 : float) :
  well_shaped data dist depth ->
  exists new_data1 new_data2 out,
    row_pass data dist = Ok new_data1 /\
    col_pass data depth = Ok new_data2 /\
    extrap_sec data dist depth w1 w2 = Ok out /\
    length out = length data /\
    Forall (fun row => length row = length dist) out /\
    (forall i, i < length data -> valid (nth i data []) = [] ->
       nth i new_data1 [] = nth i data [] /\
       nth i new_data1 [] = repeat NaN (length dist) /\
       nth i out [] = repeat NaN (length dist)) /\
    (forall j, j < length dist -> valid (column j data) = [] ->
       nth j new_data2 [] = column j data /\
       nth j new_data2 [] = repeat NaN (length data) /\
       forall i, i < length data -> nth j (nth i out []) (fz 0) = NaN).
Proof.
  intros Hws.
  destruct (extrap_sec_spec w1 w2 Hws)
    as (nd1 & nd2 & out & H1 & H2 & Hout & Hlen & Hnth).
  destruct (row_pass_total Hws) as (nd1' & H1' & _ & Hr1).
  destruct (col_pass_total Hws) as (nd2' & H2' & _ & Hr2).
  rewrite H1 in H1'. injection H1' as <-.
  rewrite H2 in H2'. injection H2' as <-.
  exists nd1, nd2, out. repeat (split; [assumption|]).
  split; [|split].
  - apply Forall_forall. intros row Hin.
    apply (In_nth _ _ []) in Hin as (i & Hi & <-).
    apply Hnth. now rewrite <- Hlen.
  - intros i Hi Hv. destruct (Hr1 i Hi) as [Hr _].
    rewrite (extrap_line_none dist _ Hv) in Hr. injection Hr as Hr.
    pose proof (valid_nil_nan _ Hv) as Hnan.
    assert (Hrow : nth i data [] = repeat NaN (length dist)).
    { destruct Hws as (_ & _ & Hrect & _).
      rewrite <- (rect_nth Hrect Hi).
      apply all_nan_repeat. exact Hnan. }
    split; [now symmetry|]. split; [now rewrite <- Hr|].
    destruct (Hnth i Hi) as [Hl Hij].
    apply nth_ext with (d := NaN) (d' := NaN);
      [now rewrite repeat_length|].
    intros j Hj. rewrite Hij by lia.
    rewrite <- Hr, (Forall_nth_nan j Hnan), nth_repeat_nan.
    reflexivity.
  - intros j Hj Hv. destruct (Hr2 j Hj) as [Hr _].
    rewrite (extrap_line_none depth _ Hv) in Hr. injection Hr as Hr.
    pose proof (valid_nil_nan _ Hv) as Hnan.
    split; [now symmetry|]. split.
    + rewrite <- Hr.
      replace (length data) with (length (column j data))
        by (unfold column; apply length_map).
      apply all_nan_repeat. exact Hnan.
    + intros i Hi. destruct (Hnth i Hi) as [Hl Hij].
      rewrite (nth_indep _ (fz 0) NaN) by lia.
      rewrite Hij by assumption. rewrite <- Hr, (Forall_nth_nan i Hnan).
      now rewrite fmul_nan_l, fadd_nan_r.
Qed.

(** The theorem on a grid whose second station has no value, with the
    weights 0.97 and 0.03 of [plot_section]. *)
Lemma extrap_sec_no_valid_point_witness :
  exists new_data1 new_data2 out,
    row_pass grid_empty_station axis_2 = Ok new_data1 /\
    col_pass grid_empty_station axis_2 = Ok new_data2 /\
    extrap_sec grid_empty_station axis_2 axis_2 (fq 97 100) (fq 3 100)
    = Ok out /\
    length out = length grid_empty_station /\
    Forall (fun row => length row = length axis_2) out /\
    (forall i, i < length grid_empty_station ->
       valid (nth i grid_empty_station []) = [] ->
       nth i new_data1 [] = nth i grid_empty_station [] /\
       nth i new_data1 [] = repeat NaN (length axis_2) /\
       nth i out [] = repeat NaN (length axis_2)) /\
    (forall j, j < length axis_2 -> valid (column j grid_empty_station) = [] ->
       nth j new_data2 [] = column j grid_empty_station /\
       nth j new_data2 [] = repeat NaN (length grid_empty_station) /\
       forall i, i < length grid_empty_station ->
         nth j (nth i out []) (fz 0) = NaN).
Proof.
  apply (@extrap_sec_no_valid_point grid_empty_station axis_2 axis_2
           (fq 97 100) (fq 3 100)).
  shape.
Defined.

(** C10: on every well-shaped grid, a column without any valid entry is NaN
    at every level of the returned grid whatever the weights are, [w2 = 0]
    included, since [w2] times NaN is NaN; and a row without any valid
    entry is NaN at every station of the returned grid for every [w1],
    [w1 = 0] included. *)
Theorem extrap_sec_nan_whatever_weights (data : list (list float))
    (dist depth : list float) (w1 w2 : float) :
  well_shaped data dist depth ->
  exists out,
    extrap_sec data dist depth w1 w2 = Ok out /\
    (forall j, j < length dist -> valid (column j data) = [] ->
       forall i, i < length data -> nth j (nth i out []) (fz 0) = NaN) /\
    (forall i, i < length data -> valid (nth i data []) = [] ->
       forall j, j < length dist -> nth j (nth i out []) (fz 0) = NaN).
Proof.
  intros Hws.
  destruct (extrap_sec_spec w1 w2 Hws)
    as (nd1 & nd2 & out & H1 & H2 & Hout & Hlen & Hnth).
  destruct (row_pass_total Hws) as (nd1' & H1' & _ & Hr1).
  destruct (col_pass_total Hws) as (nd2' & H2' & _ & Hr2).
  rewrite H1 in H1'. injection H1' as <-.
  rewrite H2 in H2'. injection H2' as <-.
  exists out. split; [assumption|]. split.
  - intros j Hj Hv i Hi. destruct (Hr2 j Hj) as [Hr _].
    rewrite (extrap_line_none depth _ Hv) in Hr. injection Hr as Hr.
    destruct (Hnth i Hi) as [Hl Hij].
    rewrite (nth_indep _ (fz 0) NaN) by lia.
    rewrite Hij by assumption.
    rewrite <- Hr, (Forall_nth_nan i (valid_nil_nan _ Hv)).
    now rewrite fmul_nan_l, fadd_nan_r.
  - intros i Hi Hv j Hj. destruct (Hr1 i Hi) as [Hr _].
    rewrite (extrap_line_none dist _ Hv) in Hr. injection Hr as Hr.
    destruct (Hnth i Hi) as [Hl Hij].
    rewrite (nth_indep _ (fz 0) NaN) by lia.
    rewrite Hij by assumption.
    rewrite <- Hr, (Forall_nth_nan j (valid_nil_nan _ Hv)).
    reflexivity.
Qed.

(** With [w1 = 1] and [w2 = 0] on a grid whose second station has no value:
    the row pass is [[1, 1], [3, 3]], valid everywhere, and the result is
    [[1, NaN], [3, NaN]]. *)
Example extrap_sec_grid_empty_station :
  row_pass grid_empty_station axis_2 = Ok [[fz 1; fz 1]; [fz 3; fz 3]] /\
  extrap_sec grid_empty_station axis_2 axis_2 (fz 1) (fz 0)
  = Ok [[fz 1; NaN]; [fz 3; NaN]].
Proof.
  split; apply result_grid_eqb_eq; vm_compute; reflexivity.
Qed.

(** The theorem on a grid whose second station has no value, with
    [w1 = 1] and [w2 = 0]. *)
Lemma extrap_sec_nan_whatever_weights_witness :
  exists out,
    extrap_sec grid_empty_station axis_2 axis_2 (fz 1) (fz 0) = Ok out /\
    (forall j, j < length axis_2 -> valid (column j grid_empty_station) = [] ->
       forall i, i < length grid_empty_station ->
         nth j (nth i out []) (fz 0) = NaN) /\
    (forall i, i < length grid_empty_station ->
       valid (nth i grid_empty_station []) = [] ->
       forall j, j < length axis_2 -> nth j (nth i out []) (fz 0) = NaN).
Proof.
  apply (@extrap_sec_nan_whatever_weights grid_empty_station axis_2 axis_2
           (fz 1) (fz 0)).
  shape.
Defined.

(** ** Ordered abscissae *)

Lemma insert_point_head (p : float * float) (l : list (float * float)) :
  sortedb (fst p :: map fst l) = true -> insert_point p l = p :: l.
Proof.
  destruct l as [|q l]; [reflexivity|]. simpl.
  intros H. apply andb_prop in H as [H _].
  now destruct (np_ltb (fst q) (fst p)).
Qed.

Lemma sortedb_tail (a : float) (l : list float) :
  sortedb (a :: l) = true -> sortedb l = true.
Proof.
  destruct l as [|b l]; [reflexivity|]. simpl.
  intros H. now apply andb_prop in H as [_ H].
Qed.

Lemma map_fst_combine {A B} (x : list A) (y : list B) :
  length x = length y -> map fst (combine x y) = x.
Proof.
  revert y. induction x as [|a x IH]; intros [|b y] Hl; simpl in *;
    try reflexivity; try discriminate.
  f_equal. apply IH. lia.
Qed.

Lemma map_snd_combine {A B} (x : list A) (y : list B) :
  length x = length y -> map snd (combine x y) = y.
Proof.
  revert y. induction x as [|a x IH]; intros [|b y] Hl; simpl in *;
    try reflexivity; try discriminate.
  f_equal. apply IH. lia.
Qed.

(** Points given in order are kept as they are by the fit. *)
Lemma sort_points_sorted (x y : list float) :
  sortedb x = true -> length x = length y ->
  sort_points (combine x y) = combine x y.
Proof.
  revert y. induction x as [|a x IH]; intros [|b y] Hs Hl; simpl in *;
    try reflexivity; try discriminate.
  fold (sort_points (combine x y)).
  rewrite IH; [|eapply sortedb_tail; eassumption | lia].
  apply insert_point_head. simpl fst.
  rewrite map_fst_combine by lia. assumption.
Qed.

(** ** gen_topomask *)

Lemma getitem_last_Ok {A} (d : A) (l : list A) :
  l <> [] -> getitem_last l = Ok (last l d).
Proof.
  intros H. unfold getitem_last.
  destruct (exists_last H) as (l' & a & ->).
  now rewrite rev_app_distr, last_last.
Qed.

Lemma nonneg_Fin (a : float) :
  nonneg a = true -> exists q, a = Fin q /\ (0 <= q)%Qc.
Proof.
  destruct a as [| |q]; simpl; try discriminate.
  intros H. exists q. split; [reflexivity|].
  now apply negb_true_iff, Qcltb_nlt in H.
Qed.

Lemma Qc_1000_neq_0 : Qceqb (Q2Qc (inject_Z 1000)) 0 = false.
Proof. reflexivity. Qed.

Lemma km_Fin (q : Qc) :
  (Fin q / fz 1000)%float = Fin (q / Q2Qc (inject_Z 1000))%Qc.
Proof. unfold fz, fdiv. now rewrite Qc_1000_neq_0. Qed.

Lemma this_km (q : Qc) :
  (this (q / Q2Qc (inject_Z 1000))%Qc == this q / 1000)%Q.
Proof.
  unfold Qcdiv, Qcinv. rewrite this_mult, !this_Q2Qc. reflexivity.
Qed.

Lemma km_nonneg (d : float) :
  nonneg d = true -> nonneg (d / fz 1000)%float = true.
Proof.
  intros H. apply nonneg_Fin in H as (q & -> & Hq).
  rewrite km_Fin. simpl. apply negb_true_iff, Qcltb_nlt.
  unfold Qcle in *. rewrite this_km.
  change (this 0%Qc) with 0%Q in *.
  apply Qle_shift_div_l; [reflexivity | lra].
Qed.

Lemma cumsum_from_sorted (a : Qc) (l : list float) :
  Forall (fun d => nonneg d = true) l ->
  sortedb (Fin a :: cumsum_from (Fin a) l) = true.
Proof.
  intros H. revert a. induction H as [|v l Hv _ IH]; intros a;
    [reflexivity|].
  apply nonneg_Fin in Hv as (q & -> & Hq).
  change (negb (Qcltb (a + q) a) && sortedb (Fin (a + q)%Qc
            :: cumsum_from (Fin (a + q)%Qc) l) = true).
  rewrite IH, andb_true_r. apply negb_true_iff, Qcltb_nlt. qc_lra.
Qed.

Lemma cumsum_sorted (l : list float) :
  Forall (fun d => nonneg d = true) l ->
  sortedb (fz 0 :: cumsum l) = true.
Proof.
  intros H. destruct H as [|v l Hv Hl]; [reflexivity|].
  pose proof Hv as Hv'. apply nonneg_Fin in Hv' as (q & -> & Hq).
  change (negb (Qcltb q (Q2Qc (inject_Z 0)))
          && sortedb (Fin q :: cumsum_from (Fin q) l) = true).
  rewrite cumsum_from_sorted by assumption.
  rewrite andb_true_r. exact Hv.
Qed.

Lemma length_cumsum_from (acc : float) (l : list float) :
  length (cumsum_from acc l) = length l.
Proof.
  revert acc. induction l as [|v l IH]; intros acc; simpl; [reflexivity|].
  now rewrite IH.
Qed.

Lemma length_cumsum (l : list float) : length (cumsum l) = length l.
Proof. destruct l; simpl; [reflexivity|]. now rewrite length_cumsum_from. Qed.

Lemma cumsum_from_finite (acc : float) (l : list float) :
  isfinite acc = true -> Forall (fun d => isfinite d = true) l ->
  Forall (fun d => isfinite d = true) (cumsum_from acc l).
Proof.
  intros Ha H. revert acc Ha. induction H as [|v l Hv _ IH]; intros acc Ha;
    simpl; constructor.
  - apply isfinite_Fin in Ha as [p ->]. now apply isfinite_Fin in Hv as [q ->].
  - apply IH.
    apply isfinite_Fin in Ha as [p ->]. now apply isfinite_Fin in Hv as [q ->].
Qed.

Lemma cumsum_finite (l : list float) :
  Forall (fun d => isfinite d = true) l ->
  Forall (fun d => isfinite d = true) (cumsum l).
Proof.
  intros H. destruct H as [|v l Hv Hl]; simpl; constructor; [assumption|].
  now apply cumsum_from_finite.
Qed.

Lemma fold_left_fmax_finite (l : list float) (a : Qc) :
  Forall (fun d => isfinite d = true) l ->
  exists m, fold_left fmax l (Fin a) = Fin m /\ (a <= m)%Qc.
Proof.
  intros H. revert a. induction H as [|v l Hv _ IH]; intros a; simpl.
  - exists a. split; [reflexivity | apply Qcle_refl].
  - apply isfinite_Fin in Hv as [q ->]. simpl.
    destruct (Qcltb a q) eqn:E.
    + destruct (IH q) as (m & Hm & Hle). exists m. split; [assumption|].
      apply Qcltb_lt in E. eapply Qcle_trans; [|exact Hle].
      now apply Qclt_le_weak.
    + apply IH.
Qed.

(** The length and the values of [np.arange(0, m + d, d)] for a step
    [d > 0]. *)
Lemma this_div (a b : Qc) : (this (a / b)%Qc == this a / this b)%Q.
Proof. unfold Qcdiv, Qcinv. rewrite this_mult, this_Q2Qc. reflexivity. Qed.

Lemma ceiling_bounds (M D Qv : Q) :
  (0 <= M)%Q -> (0 < D)%Q -> (Qv * D == M + D)%Q ->
  (1 <= Qceiling Qv)%Z /\
  (forall i : Z, (i < Qceiling Qv)%Z -> (inject_Z i * D < M + D)%Q) /\
  (M <= inject_Z (Qceiling Qv - 1) * D)%Q.
Proof.
  intros HM HD HQ.
  pose proof (Qle_ceiling Qv) as H1. pose proof (Qceiling_lt Qv) as H2.
  generalize dependent (Qceiling Qv). intros N H1 H2.
  assert (HQ1 : (1 <= Qv)%Q) by nra.
  assert (E : (inject_Z (N - 1) == inject_Z N - 1)%Q).
  { unfold Z.sub. rewrite inject_Z_plus. reflexivity. }
  assert (HN : (1 <= N)%Z).
  { rewrite Zle_Qle. change (inject_Z 1) with 1%Q. lra. }
  split; [assumption|]. split.
  - intros i Hi.
    assert (inject_Z i <= inject_Z (N - 1))%Q by (rewrite <- Zle_Qle; lia).
    nra.
  - rewrite E. nra.
Qed.

Lemma arange_from_0 (m d : Qc) :
  (0 <= m)%Qc -> (0 < d)%Qc ->
  exists n, 1 <= n /\
    arange (fz 0) (Fin m + Fin d)%float (Fin d)
    = Ok (map (grid_point d) (seq 0 n)) /\
    (forall i, i < n -> (Q2Qc (inject_Z (Z.of_nat i)) * d < m + d)%Qc) /\
    (m <= Q2Qc (inject_Z (Z.of_nat (n - 1))) * d)%Qc.
Proof.
  intros Hm Hd.
  assert (Hd0 : Qceqb d 0 = false) by (apply Qceqb_neq; qc_lra).
  set (q := ((m + d + - Q2Qc (inject_Z 0)) / d)%Qc).
  assert (Hq : (this q * this d == this m + this d)%Q).
  { unfold q. rewrite this_div, this_plus, this_plus, this_opp, this_Q2Qc.
    change (inject_Z 0) with 0%Q. field.
    unfold Qclt in Hd. change (this 0%Qc) with 0%Q in Hd. lra. }
  destruct (@ceiling_bounds (this m) (this d) (this q)) as (HN & Hlt & Hle);
    [exact Hm | exact Hd | exact Hq |].
  exists (Z.to_nat (Qceiling q)). split; [lia|]. split; [|split].
  - unfold arange, fz, fsub, fadd, fneg, fdiv. rewrite Hd0. fold q.
    f_equal. apply map_ext. intros i. unfold grid_point, fmul, fadd.
    f_equal. change (Q2Qc (inject_Z 0)) with 0%Qc. ring.
  - intros i Hi. unfold Qclt.
    rewrite this_mult, this_plus, this_Q2Qc. apply Hlt. lia.
  - unfold Qcle. rewrite this_mult, this_Q2Qc.
    replace (Z.of_nat (Z.to_nat (Qceiling q) - 1)) with (Qceiling q - 1)%Z
      by lia.
    exact Hle.
Qed.




Section TopographyFacts.
Variable gsw_distance : list float -> list float -> list float.
Variable gsw_z_from_p : float -> float -> float.
Variable fit_kind : string -> list float -> list float
                    -> result (float -> float).

Lemma length_topo_x (lon lat : list float) :
  length (topo_x gsw_distance lon lat) = S (length (gsw_distance lon lat)).
Proof. unfold topo_x. simpl. now rewrite length_cumsum, length_map. Qed.

Lemma length_topo_h (h lat : list float) :
  length (topo_h gsw_z_from_p h lat) = length h.
Proof. unfold topo_h. apply length_map. Qed.

Lemma topo_x_sorted (lon lat : list float) :
  Forall (fun d => nonneg d = true) (gsw_distance lon lat) ->
  sortedb (topo_x gsw_distance lon lat) = true.
Proof.
  intros H. unfold topo_x. apply cumsum_sorted.
  apply Forall_map. eapply Forall_impl; [|exact H].
  intros d. apply km_nonneg.
Qed.

(** The fit of the sea floor either succeeds, with an interpolant that
    answers the last depth out of its range, or fails in the fit of a kind
    that is not the linear one. *)
Lemma topo_Ih_cases (h lon lat : list float) (kind : string) :
  gsw_distance lon lat <> [] ->
  length h = S (length (gsw_distance lon lat)) ->
  let x := topo_x gsw_distance lon lat in
  let hs := topo_h gsw_z_from_p h lat in
  (exists Ih, topo_Ih gsw_distance gsw_z_from_p fit_kind h lon lat kind = Ok Ih
     /\ bounds_error Ih = false /\ fill_value Ih = last hs NaN
     /\ ix Ih = map fst (sort_points (combine x hs)))
  \/ (exists e, topo_Ih gsw_distance gsw_z_from_p fit_kind h lon lat kind
                = Raise e /\ kind <> "linear"%string).
Proof.
  intros Hne Hlen x hs.
  assert (Hlx : length x = length hs)
    by (unfold x, hs; now rewrite length_topo_x, length_topo_h).
  assert (H2 : 2 <= length x).
  { unfold x. rewrite length_topo_x.
    destruct (gsw_distance lon lat); simpl; [congruence | lia]. }
  assert (Hhs : hs <> []) by (destruct hs; simpl in *; [lia | congruence]).
  unfold topo_Ih. fold x hs.
  rewrite (getitem_last_Ok NaN Hhs). cbn [bind]. unfold interp1d_kind.
  destruct (String.eqb kind "linear") eqn:Ek.
  - left.
    destruct (@interp1d_linear_Ok x hs false (last hs NaN) Hlx H2)
      as (f & Hf & Hix & _).
    exists f. split; [assumption|].
    unfold interp1d_linear in Hf. rewrite Hlx, Nat.eqb_refl in Hf.
    simpl in Hf. destruct (length hs <? 2); [discriminate|].
    injection Hf as <-. simpl. auto.
  - rewrite Hlx, Nat.eqb_refl. cbn [negb].
    destruct (fit_kind kind _ _) as [c|e]; cbn [bind].
    + left. eexists. split; [reflexivity|]. simpl. auto.
    + right. exists e. split; [reflexivity|].
      intros ->. discriminate.
Qed.

(** C7: with distances between stations that are finite and not negative,
    the interpolant [Ih] fitted by [gen_topomask] is built for the linear
    kind (for another kind its fit may fail), and, once built, answers
    exactly the depth computed for the last station at every query strictly
    beyond the cumulated distance of the last station, however far. *)
Theorem gen_topomask_flat_beyond_last (h lon lat : list float)
    (kind : string) :
  Forall (fun d => nonneg d = true) (gsw_distance lon lat) ->
  gsw_distance lon lat <> [] ->
  length h = S (length (gsw_distance lon lat)) ->
  match topo_Ih gsw_distance gsw_z_from_p fit_kind h lon lat kind with
  | Ok Ih =>
      forall q,
        (last (topo_x gsw_distance lon lat) NaN <? q)%float = true ->
        interp1d_call Ih q = Ok (last (topo_h gsw_z_from_p h lat) NaN)
  | Raise _ => kind <> "linear"%string
  end.
Proof.
  intros Hd Hne Hlen.
  destruct (@topo_Ih_cases h lon lat kind Hne Hlen)
    as [(Ih & -> & Hbe & Hfv & Hix) | (e & -> & Hk)]; [|assumption].
  intros q Hq. unfold interp1d_call.
  rewrite sort_points_sorted in Hix;
    [| now apply topo_x_sorted
     | now rewrite length_topo_x, length_topo_h].
  rewrite map_fst_combine in Hix
    by now rewrite length_topo_x, length_topo_h.
  rewrite Hix, Hq, orb_true_r, Hbe, Hfv. reflexivity.
Qed.

End TopographyFacts.

(** The theorem on two stations 2.5 km apart. *)
Lemma gen_topomask_flat_beyond_last_witness :
  match topo_Ih two_stations_distance minus_pressure no_other_kind
          [fz 10; fz 20] [fz 0; fz 1] [fz 0; fz 1] "linear" with
  | Ok Ih =>
      forall q,
        (last (topo_x two_stations_distance [fz 0; fz 1] [fz 0; fz 1]) NaN
         <? q)%float = true ->
        interp1d_call Ih q
        = Ok (last (topo_h minus_pressure [fz 10; fz 20] [fz 0; fz 1]) NaN)
  | Raise _ => "linear"%string <> "linear"%string
  end.
Proof.
  apply (@gen_topomask_flat_beyond_last two_stations_distance minus_pressure
           no_other_kind [fz 10; fz 20] [fz 0; fz 1] [fz 0; fz 1] "linear").
  - repeat constructor.
  - discriminate.
  - reflexivity.
Defined.


(** The resampled distances and depths of that section. *)
Example gen_topomask_two_stations :
  exists xm hm,
    gen_topomask two_stations_distance minus_pressure no_other_kind
      [fz 10; fz 20] [fz 0; fz 1] [fz 0; fz 1] (fz 1) "linear" = Ok (xm, hm) /\
    xm = [fz 0; fz 1; fz 2; fz 3] /\
    hm = [fz 10; fz 14; fz 18; fz 20].
Proof.
  eexists. eexists. split; [vm_compute; reflexivity|].
  split; apply array_eqb_eq; vm_compute; reflexivity.
Qed.


(** ** Interpolation over increasing abscissae *)

Lemma flt_trans (a b c : float) : flt a b -> flt b c -> flt a c.
Proof.
  unfold flt.
  destruct a as [|s|p], b as [|t|q], c as [|u|r]; simpl;
    try discriminate;
    repeat match goal with b : bool |- _ => destruct b end;
    simpl; try congruence.
  rewrite !Qcltb_lt. apply Qclt_trans.
Qed.

Lemma increasingb_increasing (l : list float) :
  increasingb l = true -> increasing l.
Proof.
  induction l as [|a l IH]; intros H; [split; constructor|].
  simpl in H. apply andb_prop in H as [H H3].
  apply andb_prop in H as [H1 H2].
  destruct (IH H3) as [Hf Hs]. split; constructor; try assumption.
  destruct l as [|b l]; constructor; [exact H2|].
  apply StronglySorted_inv in Hs as [_ Hb].
  eapply Forall_impl; [|exact Hb]. intros c. now apply flt_trans.
Qed.

Lemma increasing_tail (a : float) (l : list float) :
  increasing (a :: l) -> increasing l.
Proof.
  intros [Hf Hs]. inversion Hf; subst.
  apply StronglySorted_inv in Hs as [Hs _]. now split.
Qed.

Lemma flt_Fin (a b : float) :
  isfinite a = true -> isfinite b = true -> flt a b ->
  exists p q, a = Fin p /\ b = Fin q /\ (p < q)%Qc.
Proof.
  intros Ha Hb H. apply isfinite_Fin in Ha as [p ->].
  apply isfinite_Fin in Hb as [q ->]. exists p, q.
  repeat split. now apply Qcltb_lt.
Qed.

Lemma increasing_sortedb (l : list float) :
  increasing l -> sortedb l = true.
Proof.
  induction l as [|a l IH]; intros H; [reflexivity|].
  pose proof (increasing_tail H) as Ht. destruct H as [Hf Hs].
  destruct l as [|b l]; [reflexivity|].
  change (negb (np_ltb b a) && sortedb (b :: l) = true).
  rewrite (IH Ht), andb_true_r.
  apply StronglySorted_inv in Hs as [_ Hb].
  inversion Hb; subst. inversion Hf as [|? ? Ha Hf']; subst.
  inversion Hf'; subst.
  destruct (@flt_Fin a b) as (p & q & -> & -> & Hpq); try assumption.
  simpl. apply negb_true_iff, Qcltb_nlt. now apply Qclt_le_weak.
Qed.

Lemma Forall_nth_finite (l : list float) (i : nat) :
  Forall (fun v => isfinite v = true) l -> i < length l ->
  exists q, nth i l NaN = Fin q.
Proof.
  intros H Hi. rewrite Forall_forall in H.
  apply isfinite_Fin, H, nth_In, Hi.
Qed.

(** The fit keeps points whose abscissae increase as they are given. *)
Lemma interp1d_linear_increasing (x y : list float) (be : bool) (fv : float)
    (f : interp1d) :
  increasing x -> interp1d_linear x y be fv = Ok f ->
  length x = length y /\ 2 <= length x /\
  ix f = x /\ iy f = y /\ call f = call_linear x y.
Proof.
  intros Hx Hf. unfold interp1d_linear in Hf.
  destruct (length x =? length y) eqn:El; simpl in Hf; [|discriminate].
  apply Nat.eqb_eq in El.
  destruct (length x <? 2) eqn:E2; [discriminate|].
  apply Nat.ltb_ge in E2. injection Hf as <-. simpl.
  rewrite sort_points_sorted by (auto using increasing_sortedb).
  rewrite map_fst_combine, map_snd_combine by assumption. auto.
Qed.

(** Arithmetic stays finite on finite values, a quotient if the divisor is
    not zero. *)
Lemma fsub_Fin (p q : Qc) : (Fin p - Fin q)%float = Fin (p - q)%Qc.
Proof. reflexivity. Qed.

Lemma fdiv_Fin (p q : Qc) :
  q <> 0%Qc -> (Fin p / Fin q)%float = Fin (p / q)%Qc.
Proof. intros H. unfold fdiv. apply Qceqb_neq in H. now rewrite H. Qed.

Lemma slope_Fin (x0 x1 y0 y1 : Qc) :
  (x0 < x1)%Qc ->
  ((Fin y1 - Fin y0) / (Fin x1 - Fin x0))%float
  = Fin ((y1 - y0) / (x1 - x0))%Qc.
Proof.
  intros H. rewrite !fsub_Fin. apply fdiv_Fin. qc_lra.
Qed.

Lemma clip_segment (s n : nat) :
  2 <= n -> exists lo, clip s 1 (n - 1) = S lo /\ S lo < n.
Proof.
  intros Hn. unfold clip. exists (Nat.min (Nat.max s 1) (n - 1) - 1).
  lia.
Qed.

(** ** extrap_sec: rows and columns with two valid values or more *)

(** C4, as stated, fails: a row with two valid values, taken at two stations
    at the same distance, keeps a NaN in the row pass: the slope between the
    two points is 0 / 0, and the extrapolation to the first station is
    NaN. *)
Lemma extrap_sec_row_pass_leaves_nan :
  exists new_data1,
    row_pass grid_tie dist_tie3 = Ok new_data1 /\
    2 <= length (valid (nth 0 grid_tie [])) /\
    isnan (nth 0 (nth 0 new_data1 []) (fz 0)) = true.
Proof.
  eexists. split; [vm_compute; reflexivity|].
  split; [vm_compute; lia | vm_compute; reflexivity].
Qed.

(** *** Magnitudes

    The bounds that keep the extrapolated curve within the range of
    [float64]: ordinates and abscissae of magnitude at most [B], abscissae
    at least [1 / B] apart. *)

Lemma within_notinf (lo hi : Qc) (line : list float) :
  within lo hi line = true -> Forall (fun v => notinf v = true) line.
Proof.
  unfold within. rewrite forallb_forall. intros H.
  apply Forall_forall. intros v Hv. specialize (H v Hv).
  now destruct v.
Qed.

Lemma within_valid (lo hi : Qc) (line : list float) :
  within lo hi line = true -> within lo hi (valid line) = true.
Proof.
  unfold within. rewrite !forallb_forall. intros H v Hv.
  apply H. now apply filter_In in Hv as [Hv _].
Qed.

Lemma within_column (lo hi : Qc) (data : list (list float)) (j : nat) :
  Forall (fun row => within lo hi row = true) data ->
  within lo hi (column j data) = true.
Proof.
  intros H. unfold within, column. apply forallb_forall. intros v Hv.
  apply in_map_iff in Hv as (r & <- & Hr).
  rewrite Forall_forall in H. specialize (H r Hr).
  unfold within in H. rewrite forallb_forall in H.
  destruct (Nat.lt_ge_cases j (length r)) as [Hj | Hj].
  - apply H, nth_In, Hj.
  - now rewrite nth_overflow.
Qed.

Lemma bounded_In (b : Qc) (l : list float) (v : float) :
  bounded b l = true -> In v l ->
  exists q, v = Fin q /\ (- b <= q)%Qc /\ (q <= b)%Qc.
Proof.
  intros H Hv. apply andb_prop in H as [Hf Hw].
  rewrite forallb_forall in Hf. pose proof (Hf _ Hv) as Hq.
  apply isfinite_Fin in Hq as [q ->]. exists q. split; [reflexivity|].
  unfold within in Hw. rewrite forallb_forall in Hw.
  specialize (Hw _ Hv). cbv beta iota in Hw.
  apply andb_prop in Hw as [Hl Hh].
  apply negb_true_iff in Hl, Hh. now rewrite Qcltb_nlt in Hl, Hh.
Qed.

Lemma bounded_nth (b : Qc) (l : list float) (k : nat) :
  bounded b l = true -> k < length l ->
  exists v, nth k l NaN = Fin v /\ (- b <= v)%Qc /\ (v <= b)%Qc.
Proof.
  intros H Hk. exact (@bounded_In b l _ H (nth_In l NaN Hk)).
Qed.

Lemma bounded_intro (b : Qc) (l : list float) :
  (forall v, In v l ->
     exists q, v = Fin q /\ (- b <= q)%Qc /\ (q <= b)%Qc) ->
  bounded b l = true.
Proof.
  intros H. unfold bounded, within.
  apply andb_true_intro. split; apply forallb_forall; intros v Hv;
    destruct (H v Hv) as (q & -> & Hl & Hh); [reflexivity|].
  apply Qcltb_nlt in Hl, Hh. now rewrite Hl, Hh.
Qed.

Lemma bounded_le (b c : Qc) (l : list float) :
  (b <= c)%Qc -> bounded b l = true -> bounded c l = true.
Proof.
  intros Hbc H. apply bounded_intro. intros v Hv.
  destruct (@bounded_In _ _ _ H Hv) as (q & -> & Hl & Hh).
  exists q. split; [reflexivity|]. split; qc_lra.
Qed.

Lemma bounded_valid (b : Qc) (line : list float) :
  within (- b) b line = true -> bounded b (valid line) = true.
Proof.
  intros H. unfold bounded. rewrite (@within_valid _ _ _ H), andb_true_r.
  apply forallb_forall. intros v Hv.
  pose proof (@within_notinf _ _ _ H) as Hn. rewrite Forall_forall in Hn.
  apply filter_In in Hv as [Hin Hv]. specialize (Hn v Hin).
  unfold notinf in Hn. destruct v; simpl in *; congruence.
Qed.

Lemma compress_In {A} (mask : list bool) (l : list A) (v : A) :
  In v (compress mask l) -> In v l.
Proof.
  revert l. induction mask as [|c mask IH]; intros [|u l] Hv; simpl in *;
    try contradiction.
  destruct c; [destruct Hv as [-> | Hv]|]; auto.
Qed.

Lemma bounded_compress (b : Qc) (mask : list bool) (l : list float) :
  bounded b l = true -> bounded b (compress mask l) = true.
Proof.
  intros H. apply bounded_intro. intros v Hv.
  apply compress_In in Hv. exact (@bounded_In _ _ _ H Hv).
Qed.

Lemma spacedb_nth (b : Qc) (l : list float) (k : nat) :
  spacedb b l = true -> S k < length l ->
  exists p q, nth k l NaN = Fin p /\ nth (S k) l NaN = Fin q /\
              (1 <= (q - p) * b)%Qc.
Proof.
  revert k. induction l as [|a l IH]; intros k H Hk; [simpl in Hk; lia|].
  cbn [spacedb] in H. apply andb_prop in H as [H H3].
  apply andb_prop in H as [H1 H2].
  destruct k as [|k].
  - destruct l as [|c l]; [simpl in Hk; lia|].
    apply isfinite_Fin in H1 as [p ->].
    cbn [spacedb] in H3. apply andb_prop in H3 as [H3 _].
    apply andb_prop in H3 as [Hc _].
    apply isfinite_Fin in Hc as [q ->].
    exists p, q. split; [reflexivity|]. split; [reflexivity|].
    apply negb_true_iff in H2. unfold fsub, fadd, fneg, fmul, fltb, fz in H2.
    change (Q2Qc (inject_Z 1)) with 1%Qc in H2.
    now apply Qcltb_nlt in H2.
  - cbn [nth]. apply IH; [assumption | simpl in Hk; lia].
Qed.

Lemma gap_lt (b p q : Qc) :
  (1 <= b)%Qc -> (1 <= (q - p) * b)%Qc -> (p < q)%Qc.
Proof.
  intros Hb Hg. qc2q. change (this 1%Qc) with 1%Q in *. nra.
Qed.

Lemma spacedb_increasingb (b : Qc) (l : list float) :
  (1 <= b)%Qc -> spacedb b l = true -> increasingb l = true.
Proof.
  intros Hb. induction l as [|a l IH]; intros H; [reflexivity|].
  pose proof H as H'. cbn [spacedb] in H. apply andb_prop in H as [H H3].
  apply andb_prop in H as [H1 _].
  cbn [increasingb]. rewrite H1, (IH H3), andb_true_r. cbn [andb].
  destruct l as [|c l]; [reflexivity|].
  destruct (@spacedb_nth b (a :: c :: l) 0 H') as (p & q & Ep & Eq & Hg);
    [simpl; lia|].
  cbn [nth] in Ep, Eq. subst a c. unfold fltb. apply Qcltb_lt.
  exact (@gap_lt b p q Hb Hg).
Qed.

Lemma slope_bound (B g dy s : Q) :
  (1 <= B)%Q -> (1 <= g * B)%Q -> (- (2 * B) <= dy)%Q -> (dy <= 2 * B)%Q ->
  (s * g == dy)%Q ->
  (- (2 * B * B) <= s)%Q /\ (s <= 2 * B * B)%Q.
Proof.
  intros HB Hg Hl Hh Hs.
  assert (Hg0 : (0 < g)%Q) by nra.
  split.
  - destruct (Qlt_le_dec s 0) as [Hneg | Hpos]; [|nra].
    assert (s * (g * B - 1) <= 0)%Q by nra. nra.
  - destruct (Qlt_le_dec 0 s) as [Hpos | Hneg]; [|nra].
    assert (0 <= s * (g * B - 1))%Q by nra. nra.
Qed.

Lemma line_bound_Q (B g dy s t ya : Q) :
  (1 <= B)%Q -> (1 <= g * B)%Q -> (- (2 * B) <= dy)%Q -> (dy <= 2 * B)%Q ->
  (s * g == dy)%Q ->
  (- (2 * B) <= t)%Q -> (t <= 2 * B)%Q -> (- B <= ya)%Q -> (ya <= B)%Q ->
  (- (5 * (B * B * B)) <= ya + s * t)%Q /\ (ya + s * t <= 5 * (B * B * B))%Q.
Proof.
  intros HB Hg Hl Hh Hs Htl Hth Hyl Hyh.
  destruct (@slope_bound B g dy s HB Hg Hl Hh Hs) as [Hsl Hsh].
  assert (HB2 : (1 <= B * B)%Q) by nra.
  assert (HB3 : (B <= B * B * B)%Q) by nra.
  assert (Hp1 : (s * t <= 4 * B * B * B)%Q).
  { assert (0 <= (2 * B * B - s) * (2 * B - t))%Q by nra.
    assert (0 <= (2 * B * B + s) * (2 * B + t))%Q by nra.
    nra. }
  assert (Hp2 : (- (4 * B * B * B) <= s * t)%Q).
  { assert (0 <= (2 * B * B - s) * (2 * B + t))%Q by nra.
    assert (0 <= (2 * B * B + s) * (2 * B - t))%Q by nra.
    nra. }
  split; lra.
Qed.

Lemma this_curve_bound (B : Qc) :
  (this (curve_bound B) == 5 * (this B * this B * this B))%Q.
Proof.
  unfold curve_bound. rewrite !this_mult, this_Q2Qc. reflexivity.
Qed.

(** The line through two points [1 / B] apart at least, evaluated from an
    anchor, all within the magnitude [B], stays within [5 * B^3]. *)
Lemma line_bound (B x0 x1 y0 y1 xa ya x : Qc) :
  (1 <= B)%Qc -> (1 <= (x1 - x0) * B)%Qc ->
  (- B <= y0)%Qc /\ (y0 <= B)%Qc -> (- B <= y1)%Qc /\ (y1 <= B)%Qc ->
  (- B <= ya)%Qc /\ (ya <= B)%Qc -> (- B <= xa)%Qc /\ (xa <= B)%Qc ->
  (- B <= x)%Qc /\ (x <= B)%Qc ->
  let v := (ya + (y1 - y0) / (x1 - x0) * (x - xa))%Qc in
  (- curve_bound B <= v)%Qc /\ (v <= curve_bound B)%Qc.
Proof.
  intros HB Hg [Hy0 Hy0'] [Hy1 Hy1'] [Hya Hya'] [Hxa Hxa'] [Hx Hx'] v.
  unfold Qcle. rewrite this_opp, this_curve_bound.
  unfold v. rewrite this_plus, this_mult, this_div, !this_minus.
  qc2q. change (this 1%Qc) with 1%Q in *.
  apply line_bound_Q with (g := (this x1 - this x0)%Q)
                          (dy := (this y1 - this y0)%Q);
    try lra.
  field. nra.
Qed.

Lemma bounded_one (b v : Qc) :
  (- b <= v)%Qc /\ (v <= b)%Qc -> bounded b [Fin v] = true.
Proof.
  intros [H1 H2]. unfold bounded, within. cbn [forallb isfinite andb].
  apply Qcltb_nlt in H1, H2. now rewrite H1, H2.
Qed.

Lemma bounded_cons (b : Qc) (v : float) (l : list float) :
  bounded b (v :: l) = bounded b [v] && bounded b l.
Proof.
  unfold bounded, within. cbn [forallb].
  destruct (isfinite v), (forallb isfinite l); cbn [andb];
    rewrite ?andb_true_r, ?andb_false_r; reflexivity.
Qed.

Lemma bounded_map {A} (b : Qc) (g : A -> float) (l : list A) :
  (forall a, In a l -> bounded b [g a] = true) ->
  bounded b (map g l) = true.
Proof.
  induction l as [|a l IH]; intros H; [reflexivity|].
  cbn [map]. rewrite bounded_cons, H by (left; reflexivity).
  apply IH. intros; apply H. now right.
Qed.

(** A magnitude that is moderate leaves the bound of the line, and twice
    that bound, within the range of [float64]. *)
Lemma moderate_curve_bound (B : Qc) :
  moderate B ->
  (B <= curve_bound B)%Qc /\
  (curve_bound B + curve_bound B <= float_max)%Qc.
Proof.
  intros [HB Hcap]. unfold Qcle in *. rewrite this_plus, this_curve_bound.
  rewrite !this_mult, this_Q2Qc in Hcap.
  change (this 1%Qc) with 1%Q in HB. change (inject_Z 16) with 16%Q in Hcap.
  assert (HB2 : (1 <= this B * this B)%Q) by nra.
  assert (HB3 : (this B <= this B * this B * this B)%Q) by nra.
  split; lra.
Qed.

Lemma curve_bound_float_max (B : Qc) :
  moderate B -> (curve_bound B <= float_max)%Qc.
Proof.
  intros H. pose proof H as [HB _].
  destruct (@moderate_curve_bound _ H) as [H1 H2]. qc2q.
  change (this 1%Qc) with 1%Q in HB. lra.
Qed.

(** Over abscissae that are [1 / B] apart at least and ordinates within the
    magnitude [B], the line of a segment evaluated at a point within the
    magnitude [B] stays within [5 * B^3], and so do the interpolant and the
    extrapolant. *)
Lemma segment_bounded (xs ys : list float) (B : Qc) (k : nat) :
  (1 <= B)%Qc ->
  spacedb B xs = true -> bounded B xs = true -> bounded B ys = true ->
  length xs = length ys -> S k < length xs ->
  exists x0 x1 y0 y1,
    nth k xs NaN = Fin x0 /\ nth (S k) xs NaN = Fin x1 /\
    nth k ys NaN = Fin y0 /\ nth (S k) ys NaN = Fin y1 /\
    (x0 < x1)%Qc /\
    forall xa ya q,
      (xa = x0 /\ ya = y0) \/ (xa = x1 /\ ya = y1) ->
      (- B <= q)%Qc /\ (q <= B)%Qc ->
      let v := (ya + (y1 - y0) / (x1 - x0) * (q - xa))%Qc in
      (- curve_bound B <= v)%Qc /\ (v <= curve_bound B)%Qc.
Proof.
  intros HB Hsp Hbx Hby Hl Hk.
  destruct (@spacedb_nth _ _ k Hsp Hk) as (x0 & x1 & E0 & E1 & Hg).
  destruct (@bounded_nth B xs k Hbx) as (x0' & E0' & Hx0); [lia|].
  destruct (@bounded_nth B xs (S k) Hbx) as (x1' & E1' & Hx1); [lia|].
  destruct (@bounded_nth B ys k Hby) as (y0 & Ey0 & Hy0); [lia|].
  destruct (@bounded_nth B ys (S k) Hby) as (y1 & Ey1 & Hy1); [lia|].
  rewrite E0 in E0'. injection E0' as <-.
  rewrite E1 in E1'. injection E1' as <-.
  exists x0, x1, y0, y1. repeat (split; [assumption|]).
  split; [exact (@gap_lt _ _ _ HB Hg)|].
  intros xa ya q [[-> ->] | [-> ->]] Hq; now apply line_bound.
Qed.

Lemma call_linear_bounded (xs ys : list float) (B q : Qc) :
  (1 <= B)%Qc ->
  spacedb B xs = true -> bounded B xs = true -> bounded B ys = true ->
  length xs = length ys -> 2 <= length xs ->
  (- B <= q)%Qc /\ (q <= B)%Qc ->
  bounded (curve_bound B) [call_linear xs ys (Fin q)] = true.
Proof.
  intros HB Hsp Hbx Hby Hl Hn Hq. unfold call_linear.
  destruct (@clip_segment (searchsorted xs (Fin q)) (length xs) Hn)
    as (lo & -> & Hlo).
  replace (S lo - 1) with lo by lia.
  destruct (@segment_bounded xs ys B lo HB Hsp Hbx Hby Hl Hlo)
    as (x0 & x1 & y0 & y1 & -> & -> & -> & -> & Hlt & Hv).
  rewrite slope_Fin by assumption.
  apply bounded_one.
  specialize (Hv x0 y0 q (or_introl (conj eq_refl eq_refl)) Hq).
  cbv zeta in Hv. now rewrite (Qcplus_comm _ y0).
Qed.

Lemma extrap1d_value_bounded (f : interp1d) (B q : Qc) :
  (1 <= B)%Qc ->
  spacedb B (ix f) = true -> bounded B (ix f) = true ->
  bounded B (iy f) = true ->
  length (ix f) = length (iy f) -> 2 <= length (ix f) ->
  call f = call_linear (ix f) (iy f) ->
  (- B <= q)%Qc /\ (q <= B)%Qc ->
  bounded (curve_bound B) [extrap1d_value f (Fin q)] = true.
Proof.
  intros HB Hsp Hbx Hby Hl Hn Hc Hq.
  unfold extrap1d_value.
  destruct (Fin q <? nth 0 (ix f) NaN)%float.
  - destruct (@segment_bounded (ix f) (iy f) B 0 HB Hsp Hbx Hby Hl)
      as (x0 & x1 & y0 & y1 & -> & -> & -> & -> & Hlt & Hv); [lia|].
    rewrite slope_Fin by assumption.
    apply bounded_one.
    exact (Hv x0 y0 q (or_introl (conj eq_refl eq_refl)) Hq).
  - destruct (nth (length (ix f) - 1) (ix f) NaN <? Fin q)%float.
    + destruct (@segment_bounded (ix f) (iy f) B (length (ix f) - 2)
                  HB Hsp Hbx Hby Hl)
        as (x0 & x1 & y0 & y1 & E0 & E1 & E2 & E3 & Hlt & Hv); [lia|].
      replace (S (length (ix f) - 2)) with (length (ix f) - 1) in * by lia.
      rewrite E0, E1, E2, E3. rewrite slope_Fin by assumption.
      apply bounded_one.
      exact (Hv x1 y1 q (or_intror (conj eq_refl eq_refl)) Hq).
    + rewrite Hc. now apply call_linear_bounded.
Qed.

(** A line with two valid values or more, within the magnitude [B] over an
    axis within the magnitude [B] whose valid positions are [1 / B] apart
    at least, becomes the extrapolated curve evaluated over the whole axis,
    finite everywhere and within [5 * B^3]. *)
Lemma extrap_line_bounded (B : Qc) (axis line : list float) :
  (1 <= B)%Qc ->
  length axis = length line ->
  bounded B axis = true ->
  within (- B) B line = true ->
  2 <= length (valid line) ->
  spacedb B (compress (notnan_mask line) axis) = true ->
  exists f,
    interp1d_linear (compress (notnan_mask line) axis) (valid line) true NaN
    = Ok f /\
    mapM (extrap1d f) axis = Ok (map (extrap1d_value f) axis) /\
    extrap_line axis line = Ok (map (extrap1d_value f) axis) /\
    bounded (curve_bound B) (map (extrap1d_value f) axis) = true.
Proof.
  intros HB Hl Hax Hline H2 Hsp.
  destruct (extrap_line_many axis line Hl H2)
    as (f & Hf & _ & _ & _ & Hr).
  fold (notnan_mask line) in Hf.
  assert (Hinc : increasing (compress (notnan_mask line) axis))
    by (apply increasingb_increasing; eapply spacedb_increasingb; eassumption).
  destruct (interp1d_linear_increasing _ _ _ Hinc Hf)
    as (Hlen & Hn & Hix & Hiy & Hcall).
  exists f. split; [assumption|].
  split; [apply mapM_Ok_map; intros; apply extrap1d_Ok|].
  split; [assumption|].
  apply bounded_map. intros v Hv.
  destruct (@bounded_In _ _ _ Hax Hv) as (q & -> & Hq).
  apply extrap1d_value_bounded; rewrite ?Hix, ?Hiy; auto.
  - now apply bounded_compress.
  - now apply bounded_valid.
Qed.

(** C4, amended: on every well-shaped grid whose values and axis positions
    are finite (or missing, for the values) and of a moderate magnitude [B]
    at most ([1 <= B], and [16 * B^3] within the range of [float64]), for
    every row with at least 2 valid values taken at distances that increase
    by [1 / B] at least (and every column with at least 2 valid values
    taken at depths that increase by [1 / B] at least), the corresponding
    pass of [extrap_sec] replaces every entry of the row (column), the
    valid ones included, by the fitted interpolant with its linear
    extrapolation evaluated over the full axis, and every entry of that
    row (column) of the pass is finite and within the range of [float64]:
    no NaN is left. *)
Theorem extrap_sec_pass_fills_line (data : list (list float))
    (dist depth : list float) (B : Qc) :
  well_shaped data dist depth ->
  moderate B ->
  Forall (fun row => within (- B) B row = true) data ->
  bounded B dist = true ->
  bounded B depth = true ->
  (exists new_data1, row_pass data dist = Ok new_data1 /\
     forall i, i < length data ->
       let row := nth i data [] in
       2 <= length (valid row) ->
       spacedb B (compress (notnan_mask row) dist) = true ->
       exists f_i,
         interp1d_linear (compress (notnan_mask row) dist) (valid row) true NaN
         = Ok f_i /\
         mapM (extrap1d f_i) dist = Ok (nth i new_data1 []) /\
         length (nth i new_data1 []) = length dist /\
         bounded float_max (nth i new_data1 []) = true) /\
  (exists new_data2, col_pass data depth = Ok new_data2 /\
     forall j, j < length dist ->
       let col := column j data in
       2 <= length (valid col) ->
       spacedb B (compress (notnan_mask col) depth) = true ->
       exists f_i,
         interp1d_linear (compress (notnan_mask col) depth) (valid col) true NaN
         = Ok f_i /\
         mapM (extrap1d f_i) depth = Ok (nth j new_data2 []) /\
         length (nth j new_data2 []) = length depth /\
         bounded float_max (nth j new_data2 []) = true).
Proof.
  intros Hws HB Hdata Hdist Hdepth.
  pose proof (@curve_bound_float_max _ HB) as Hcap. destruct HB as [HB _].
  split.
  - destruct (row_pass_total Hws) as (nd1 & H1 & _ & Hr1).
    exists nd1. split; [assumption|]. intros i Hi row H2 Hsp.
    destruct (Hr1 i Hi) as [Hr Hlen]. fold row in Hr.
    destruct (@extrap_line_bounded B dist row)
      as (f & Hf & Hm & He & Hfin); auto.
    + symmetry. destruct Hws as (_ & _ & Hrect & _). now apply rect_nth.
    + rewrite Forall_forall in Hdata. apply Hdata, nth_In, Hi.
    + rewrite He in Hr. injection Hr as Hr. rewrite <- Hr.
      exists f. rewrite length_map.
      repeat (split; [auto|]). exact (@bounded_le _ _ _ Hcap Hfin).
  - destruct (col_pass_total Hws) as (nd2 & H2 & _ & Hr2).
    exists nd2. split; [assumption|]. intros j Hj col Hv Hsp.
    destruct (Hr2 j Hj) as [Hr Hlen]. fold col in Hr.
    destruct (@extrap_line_bounded B depth col)
      as (f & Hf & Hm & He & Hfin); auto.
    + unfold col, column. rewrite length_map. apply Hws.
    + now apply within_column.
    + rewrite He in Hr. injection Hr as Hr. rewrite <- Hr.
      exists f. rewrite length_map.
      repeat (split; [auto|]). exact (@bounded_le _ _ _ Hcap Hfin).
Qed.

(** The theorem on a grid of two levels and three stations, with the
    magnitude [B = 10]. *)
Lemma extrap_sec_pass_fills_line_witness :
  (exists new_data1, row_pass grid_2x3 axis_3 = Ok new_data1 /\
     forall i, i < length grid_2x3 ->
       let row := nth i grid_2x3 [] in
       2 <= length (valid row) ->
       spacedb (Q2Qc (inject_Z 10)) (compress (notnan_mask row) axis_3)
       = true ->
       exists f_i,
         interp1d_linear (compress (notnan_mask row) axis_3) (valid row)
           true NaN = Ok f_i /\
         mapM (extrap1d f_i) axis_3 = Ok (nth i new_data1 []) /\
         length (nth i new_data1 []) = length axis_3 /\
         bounded float_max (nth i new_data1 []) = true) /\
  (exists new_data2, col_pass grid_2x3 axis_2 = Ok new_data2 /\
     forall j, j < length axis_3 ->
       let col := column j grid_2x3 in
       2 <= length (valid col) ->
       spacedb (Q2Qc (inject_Z 10)) (compress (notnan_mask col) axis_2)
       = true ->
       exists f_i,
         interp1d_linear (compress (notnan_mask col) axis_2) (valid col)
           true NaN = Ok f_i /\
         mapM (extrap1d f_i) axis_2 = Ok (nth j new_data2 []) /\
         length (nth j new_data2 []) = length axis_2 /\
         bounded float_max (nth j new_data2 []) = true).
Proof.
  apply (@extrap_sec_pass_fills_line grid_2x3 axis_3 axis_2
           (Q2Qc (inject_Z 10))).
  - shape.
  - split; apply Qcltb_nlt; vm_compute; reflexivity.
  - repeat constructor.
  - reflexivity.
  - reflexivity.
Defined.

(** * Further properties *)

(** ** extrap_sec: the shape of the result *)

(** On every well-shaped grid, whatever the weights, [extrap_sec] raises
    nothing and returns a grid of the shape of its input. *)
Theorem extrap_sec_shape (data : list (list float)) (dist depth : list float)
    (w1 w2 : float) :
  well_shaped data dist depth ->
  exists out,
    extrap_sec data dist depth w1 w2 = Ok out /\
    length out = length data /\
    Forall (fun row => length row = length dist) out.
Proof.
  intros Hws.
  destruct (extrap_sec_spec w1 w2 Hws)
    as (nd1 & nd2 & out & _ & _ & Hout & Hlen & Hnth).
  exists out. split; [assumption|]. split; [assumption|].
  apply Forall_nth. intros i d Hi.
  rewrite (nth_indep _ d []) by assumption.
  apply Hnth. lia.
Qed.

(** The theorem on a grid of two levels and five stations. *)
Lemma extrap_sec_shape_witness :
  exists out,
    extrap_sec grid_2x5 dist_tie depth_2 (fq 97 100) (fq 3 100) = Ok out /\
    length out = length grid_2x5 /\
    Forall (fun row => length row = length dist_tie) out.
Proof.
  apply (@extrap_sec_shape grid_2x5 dist_tie depth_2 (fq 97 100) (fq 3 100)).
  shape.
Defined.

(** ** extrap_sec: a grid without missing entry *)

(** Entries that are [1 / b] apart stay so when entries between them are
    left out. *)
Lemma spacedb_all (b : Qc) (a : float) (l : list float) :
  spacedb b (a :: l) = true ->
  forall c, In c l ->
    exists p q, a = Fin p /\ c = Fin q /\ (1 <= (q - p) * b)%Qc.
Proof.
  revert a. induction l as [|u l IH]; intros a H c Hc; [contradiction|].
  destruct (@spacedb_nth b (a :: u :: l) 0 H) as (p & q & Ep & Eq & Hg);
    [simpl; lia|].
  cbn [nth] in Ep, Eq. subst a u.
  destruct Hc as [<- | Hc]; [now exists p, q|].
  cbn [spacedb] in H. apply andb_prop in H as [_ H].
  destruct (IH (Fin q) H c Hc) as (q' & r & Eq' & -> & Hg').
  injection Eq' as <-. exists p, r.
  split; [reflexivity|]. split; [reflexivity|].
  qc2q. change (this 1%Qc) with 1%Q in *. nra.
Qed.

Lemma spacedb_compress (b : Qc) (mask : list bool) (l : list float) :
  spacedb b l = true -> spacedb b (compress mask l) = true.
Proof.
  revert mask. induction l as [|a l IH]; intros [|m mask] H;
    try reflexivity.
  pose proof H as H'. cbn [spacedb] in H'.
  apply andb_prop in H' as [H' Hl]. apply andb_prop in H' as [Ha _].
  cbn [compress]. destruct m; [|now apply IH].
  cbn [spacedb]. rewrite Ha, (IH mask Hl), andb_true_r. cbn [andb].
  destruct (compress mask l) as [|c r] eqn:E; [reflexivity|].
  assert (Hc : In c l) by (apply (@compress_In _ mask); rewrite E; now left).
  destruct (@spacedb_all _ _ _ H c Hc) as (p & q & -> & -> & Hg).
  apply negb_true_iff. unfold fsub, fadd, fneg, fmul, fltb, fz.
  change (Q2Qc (inject_Z 1)) with 1%Qc. now apply Qcltb_nlt.
Qed.

Lemma spacedb_last_gt (b a : Qc) (l : list float) :
  (1 <= b)%Qc -> spacedb b (Fin a :: l) = true -> l <> [] ->
  exists q, last (Fin a :: l) NaN = Fin q /\ (a < q)%Qc.
Proof.
  intros Hb H Hne. destruct (exists_last Hne) as (l' & c & ->).
  destruct (@spacedb_all _ _ _ H c) as (p & q & Ep & -> & Hg).
  { apply in_or_app. right. now left. }
  injection Ep as <-. exists q.
  rewrite app_comm_cons, last_last. split; [reflexivity|].
  exact (@gap_lt _ _ _ Hb Hg).
Qed.

(** A line with one valid value or more, within the magnitude [B] over an
    axis within the magnitude [B] whose positions are [1 / B] apart at
    least, comes out of the loop body finite and within [5 * B^3]. *)
Lemma extrap_line_filled (B : Qc) (axis line : list float) :
  moderate B ->
  length axis = length line ->
  bounded B axis = true -> spacedb B axis = true ->
  within (- B) B line = true ->
  valid line <> [] ->
  exists r, extrap_line axis line = Ok r /\ length r = length line /\
            bounded (curve_bound B) r = true.
Proof.
  intros HB Hl Hax Hsp Hline Hne.
  destruct (@moderate_curve_bound _ HB) as [HBc _]. destruct HB as [HB _].
  destruct (valid_cases line) as [H | [[v H] | H]]; [congruence | |].
  - exists (repeat v (length line)).
    split; [now apply extrap_line_one|].
    split; [apply repeat_length|].
    pose proof (@bounded_valid _ _ Hline) as Hv. rewrite H in Hv.
    apply bounded_intro. intros w Hw. apply repeat_spec in Hw as ->.
    destruct (@bounded_In _ _ v Hv) as (q & -> & Hq1 & Hq2); [now left|].
    exists q. split; [reflexivity|]. split; qc_lra.
  - destruct (@extrap_line_bounded B axis line)
      as (f & _ & _ & He & Hfin); auto.
    { now apply spacedb_compress. }
    exists (map (extrap1d_value f) axis). split; [assumption|].
    split; [now rewrite length_map | assumption].
Qed.

(** The blend of two values within a magnitude [C], with weights between
    -1 and 1, stays within [2 * C]. *)
Lemma blend_bound (C a b u v : Qc) :
  (- C <= a)%Qc /\ (a <= C)%Qc -> (- C <= b)%Qc /\ (b <= C)%Qc ->
  (Qcopp 1 <= u)%Qc /\ (u <= 1)%Qc -> (Qcopp 1 <= v)%Qc /\ (v <= 1)%Qc ->
  (- (C + C) <= a * u + b * v)%Qc /\ (a * u + b * v <= C + C)%Qc.
Proof.
  intros [Ha Ha'] [Hb Hb'] [Hu Hu'] [Hv Hv']. qc2q.
  change (this 1%Qc) with 1%Q in *.
  assert (0 <= (this C - this a) * (1 - this u))%Q by nra.
  assert (0 <= (this C + this a) * (1 + this u))%Q by nra.
  assert (0 <= (this C - this a) * (1 + this u))%Q by nra.
  assert (0 <= (this C + this a) * (1 - this u))%Q by nra.
  assert (0 <= (this C - this b) * (1 - this v))%Q by nra.
  assert (0 <= (this C + this b) * (1 + this v))%Q by nra.
  assert (0 <= (this C - this b) * (1 + this v))%Q by nra.
  assert (0 <= (this C + this b) * (1 - this v))%Q by nra.
  split; lra.
Qed.

(** On a well-shaped grid whose values, distances and depths are finite (or
    missing, for the values) and of a moderate magnitude [B] at most, with
    stations that are [1 / B] apart at least and levels that are [1 / B]
    apart at least, and with weights between -1 and 1: if every level and
    every station has at least one valid value, the grid returned by
    [extrap_sec] has the shape of its input and is finite everywhere,
    within the range of [float64]; no missing entry is left. *)
Theorem extrap_sec_fills_grid (data : list (list float))
    (dist depth : list float) (w1 w2 : float) (B : Qc) :
  well_shaped data dist depth ->
  moderate B ->
  Forall (fun row => within (- B) B row = true) data ->
  bounded B dist = true -> spacedb B dist = true ->
  bounded B depth = true -> spacedb B depth = true ->
  bounded 1 [w1; w2] = true ->
  forallb (fun row => 1 <=? length (valid row)) data = true ->
  forallb (fun j => 1 <=? length (valid (column j data)))
          (seq 0 (length dist)) = true ->
  exists out,
    extrap_sec data dist depth w1 w2 = Ok out /\
    length out = length data /\
    Forall (fun row => length row = length dist /\
                       bounded float_max row = true) out.
Proof.
  intros Hws HB Hdata Hdist Hsdist Hdepth Hsdepth Hw Hrows Hcols.
  destruct (extrap_sec_spec w1 w2 Hws)
    as (nd1 & nd2 & out & H1 & H2 & Hout & Hlen & Hnth).
  destruct (row_pass_total Hws) as (nd1' & H1' & _ & Hr1).
  destruct (col_pass_total Hws) as (nd2' & H2' & _ & Hr2).
  rewrite H1 in H1'. injection H1' as <-.
  rewrite H2 in H2'. injection H2' as <-.
  pose proof Hws as (Hne & Hdne & Hrect & Hld).
  rewrite forallb_forall in Hrows, Hcols.
  destruct (@moderate_curve_bound _ HB) as [_ Hcap].
  destruct (@bounded_In _ _ w1 Hw) as (u & -> & Hu); [now left|].
  destruct (@bounded_In _ _ w2 Hw) as (v & -> & Hv); [right; now left|].
  exists out. split; [assumption|]. split; [assumption|].
  apply Forall_nth. intros i d Hi.
  rewrite (nth_indep _ d []) by assumption. rewrite Hlen in Hi.
  destruct (Hnth i Hi) as [Hli Hij]. split; [assumption|].
  apply bounded_intro. intros x Hx.
  apply (In_nth _ _ NaN) in Hx as (j & Hj & <-). rewrite Hli in Hj.
  rewrite (Hij j Hj).
  destruct (@extrap_line_filled B dist (nth i data []))
    as (r & Hr & Hlr & Hfr); auto.
  { symmetry. now apply rect_nth. }
  { rewrite Forall_forall in Hdata. apply Hdata, nth_In, Hi. }
  { intros E. specialize (Hrows _ (nth_In data [] Hi)).
    rewrite E in Hrows. discriminate. }
  destruct (@extrap_line_filled B depth (column j data))
    as (c & Hc & Hlc & Hfc); auto.
  { unfold column. now rewrite length_map. }
  { now apply within_column. }
  { intros E. assert (Hin : In j (seq 0 (length dist)))
      by (apply in_seq; lia).
    specialize (Hcols _ Hin). rewrite E in Hcols. discriminate. }
  destruct (Hr1 i Hi) as [Hr' _]. rewrite Hr in Hr'. injection Hr' as <-.
  destruct (Hr2 j Hj) as [Hc' _]. rewrite Hc in Hc'. injection Hc' as <-.
  destruct (@bounded_nth _ _ j Hfr) as (a & -> & Ha).
  { rewrite Hlr, (rect_nth Hrect Hi). lia. }
  destruct (@bounded_nth _ _ i Hfc) as (b & -> & Hb).
  { rewrite Hlc. unfold column. now rewrite length_map. }
  exists (a * u + b * v)%Qc. split; [reflexivity|].
  destruct (@blend_bound _ _ _ _ _ Ha Hb Hu Hv) as [Hlo Hhi].
  split; qc_lra.
Qed.

(** The theorem on a grid of two levels and five stations whose first
    station has no value at the first level, with the weights 0.97 and
    0.03 of [plot_section] and the magnitude [B = 100]. *)
Lemma extrap_sec_fills_grid_witness :
  exists out,
    extrap_sec grid_2x5 dist_5 depth_2 (fq 97 100) (fq 3 100) = Ok out /\
    length out = length grid_2x5 /\
    Forall (fun row => length row = length dist_5 /\
                       bounded float_max row = true) out.
Proof.
  apply (@extrap_sec_fills_grid grid_2x5 dist_5 depth_2
           (fq 97 100) (fq 3 100) (Q2Qc (inject_Z 100))).
  - shape.
  - split; apply Qcltb_nlt; vm_compute; reflexivity.
  - repeat constructor.
  - reflexivity.
  - reflexivity.
  - reflexivity.
  - reflexivity.
  - reflexivity.
  - reflexivity.
  - reflexivity.
Defined.

(** ** gen_topomask: the depths of the mask *)

Section TopographyDepths.
Variable gsw_distance : list float -> list float -> list float.
Variable gsw_z_from_p : float -> float -> float.
Variable fit_kind : string -> list float -> list float
                    -> result (float -> float).

(** With cumulated distances that increase, the mask of the linear kind
    is the interpolant of line 154 evaluated at the multiples of the
    resolution: the depth of the last station where the multiple is out of
    the range of the stations, the line of its segment elsewhere. *)
Lemma gen_topomask_linear (h lon lat : list float) (d : Qc) :
  increasing (topo_x gsw_distance lon lat) ->
  gsw_distance lon lat <> [] ->
  length h = S (length (gsw_distance lon lat)) ->
  (0 < d)%Qc ->
  let x := topo_x gsw_distance lon lat in
  let hs := topo_h gsw_z_from_p h lat in
  exists n,
    1 <= n /\
    gen_topomask gsw_distance gsw_z_from_p fit_kind h lon lat (Fin d) "linear"
    = Ok (map (grid_point d) (seq 0 n),
          map (fun q => if (q <? hd NaN x)%float || (last x NaN <? q)%float
                        then last hs NaN else call_linear x hs q)
              (map (grid_point d) (seq 0 n))).
Proof.
  intros Hx Hne Hlen Hd x hs. fold x in Hx.
  assert (Hlx : length x = length hs)
    by (unfold x, hs; now rewrite length_topo_x, length_topo_h).
  assert (H2 : 2 <= length x).
  { unfold x. rewrite length_topo_x.
    destruct (gsw_distance lon lat); simpl; [congruence | lia]. }
  assert (Hhs : hs <> []) by (destruct hs; simpl in *; [lia | congruence]).
  set (Ih := {| ix := x; iy := hs; bounds_error := false;
                fill_value := last hs NaN; call := call_linear x hs |}).
  assert (HIh : topo_Ih gsw_distance gsw_z_from_p fit_kind h lon lat "linear"
                = Ok Ih).
  { unfold topo_Ih. fold x hs. rewrite (getitem_last_Ok NaN Hhs).
    cbn [bind]. unfold interp1d_kind.
    change (String.eqb "linear" "linear") with true. cbv iota.
    unfold interp1d_linear. rewrite Hlx, Nat.eqb_refl. cbn [negb].
    destruct (length hs <? 2) eqn:E; [apply Nat.ltb_lt in E; lia|].
    rewrite sort_points_sorted by (auto using increasing_sortedb).
    now rewrite map_fst_combine, map_snd_combine by assumption. }
  assert (Hmax : exists m, amax x = Ok (Fin m) /\ (0 <= m)%Qc).
  { unfold x, topo_x, amax.
    destruct (@fold_left_fmax_finite
                (cumsum (map (fun d => (d / fz 1000)%float)
                             (gsw_distance lon lat))) 0%Qc) as (m & Hm & Hle).
    - destruct Hx as [Hf _]. unfold x, topo_x in Hf. now inversion Hf.
    - exists m. split; [|assumption]. f_equal. exact Hm. }
  destruct Hmax as (m & Hmax & Hm0).
  destruct (arange_from_0 Hm0 Hd) as (n & Hn & Har & _ & _).
  exists n. split; [assumption|].
  unfold gen_topomask. rewrite HIh. cbn [bind]. fold x.
  rewrite Hmax. cbn [bind]. rewrite Har. cbn [bind].
  erewrite mapM_Ok_map; [reflexivity|].
  intros q _. unfold interp1d_call. cbn [ix bounds_error fill_value call Ih].
  now destruct (_ || _).
Qed.

(** With cumulated distances and depths of the stations that are finite and
    of a moderate magnitude [B] at most, stations that are [1 / B] km apart
    at least and a finite resolution [dx > 0], [gen_topomask] returns for
    the linear kind a mask with one depth per resampled distance, the depths
    all finite and within the range of [float64]: the mask has no missing
    depth. *)
Theorem gen_topomask_depths_finite (h lon lat : list float) (dx : float)
    (B : Qc) :
  moderate B ->
  gsw_distance lon lat <> [] ->
  length h = S (length (gsw_distance lon lat)) ->
  bounded B (topo_x gsw_distance lon lat) = true ->
  spacedb B (topo_x gsw_distance lon lat) = true ->
  bounded B (topo_h gsw_z_from_p h lat) = true ->
  isfinite dx = true ->
  (fz 0 <? dx)%float = true ->
  exists xm hm,
    gen_topomask gsw_distance gsw_z_from_p fit_kind h lon lat dx "linear"
    = Ok (xm, hm) /\
    xm <> [] /\ length hm = length xm /\
    bounded float_max hm = true.
Proof.
  intros HB Hne Hlen Hbx Hsp Hbh Hdx Hpos.
  pose proof (@curve_bound_float_max _ HB) as Hcap.
  destruct (@moderate_curve_bound _ HB) as [HBc _]. destruct HB as [HB _].
  apply isfinite_Fin in Hdx as [d ->].
  assert (Hd : (0 < d)%Qc) by (now apply Qcltb_lt in Hpos).
  assert (Hx : increasing (topo_x gsw_distance lon lat))
    by (apply increasingb_increasing; eapply spacedb_increasingb; eassumption).
  destruct (@gen_topomask_linear h lon lat d Hx Hne Hlen Hd) as (n & Hn & Hgen).
  set (x := topo_x gsw_distance lon lat) in *.
  set (hs := topo_h gsw_z_from_p h lat) in *.
  assert (Hlx : length x = length hs)
    by (unfold x, hs; now rewrite length_topo_x, length_topo_h).
  assert (H2 : 2 <= length x).
  { unfold x. rewrite length_topo_x.
    destruct (gsw_distance lon lat); simpl; [congruence | lia]. }
  eexists. eexists. split; [exact Hgen|].
  split; [destruct n; [lia | discriminate]|].
  split; [now rewrite length_map|].
  apply bounded_map. intros q Hq.
  apply in_map_iff in Hq as (i & <- & _). unfold grid_point.
  set (r := (Q2Qc (inject_Z (Z.of_nat i)) * d)%Qc).
  rewrite hd_nth0, last_nth.
  destruct (@bounded_nth B x 0 Hbx) as (x0 & E0 & Hx0); [lia|].
  destruct (@bounded_nth B x (length x - 1) Hbx) as (xl & El & Hxl); [lia|].
  destruct (@bounded_nth B hs (length hs - 1) Hbh) as (hl & Ehl & Hhl); [lia|].
  rewrite E0, El, last_nth, Ehl. unfold fltb.
  destruct (Qcltb r x0) eqn:Elo; cbn [orb].
  { apply bounded_one. split; qc_lra. }
  destruct (Qcltb xl r) eqn:Ehi.
  { apply bounded_one. split; qc_lra. }
  apply Qcltb_nlt in Elo, Ehi.
  apply bounded_le with (b := curve_bound B); [assumption|].
  apply call_linear_bounded; auto.
  split; qc_lra.
Qed.

(** With cumulated distances and depths of the stations that are finite and
    of a moderate magnitude [B] at most, stations that are [1 / B] km apart
    at least and a finite resolution [dx > 0], the mask that [gen_topomask]
    returns for the linear kind starts at the depth of the first station:
    the first resampled distance is 0, the cumulated distance of the first
    station, where the interpolant answers the finite depth it was fitted
    on. *)
Theorem gen_topomask_first_depth (h lon lat : list float) (dx : float)
    (B : Qc) :
  moderate B ->
  gsw_distance lon lat <> [] ->
  length h = S (length (gsw_distance lon lat)) ->
  bounded B (topo_x gsw_distance lon lat) = true ->
  spacedb B (topo_x gsw_distance lon lat) = true ->
  bounded B (topo_h gsw_z_from_p h lat) = true ->
  isfinite dx = true ->
  (fz 0 <? dx)%float = true ->
  exists xm hm,
    gen_topomask gsw_distance gsw_z_from_p fit_kind h lon lat dx "linear"
    = Ok (xm, hm) /\
    nth 0 xm NaN = fz 0 /\
    isfinite (nth 0 hm NaN) = true /\
    nth 0 hm NaN = nth 0 (topo_h gsw_z_from_p h lat) NaN.
Proof.
  intros [HB _] Hne Hlen Hbx Hsp Hbh Hdx Hpos.
  apply isfinite_Fin in Hdx as [d ->].
  assert (Hd : (0 < d)%Qc) by (now apply Qcltb_lt in Hpos).
  assert (Hx : increasing (topo_x gsw_distance lon lat))
    by (apply increasingb_increasing; eapply spacedb_increasingb; eassumption).
  destruct (@gen_topomask_linear h lon lat d Hx Hne Hlen Hd) as (n & Hn & Hgen).
  set (x := topo_x gsw_distance lon lat) in *.
  set (hs := topo_h gsw_z_from_p h lat) in *.
  assert (Hlx : length x = length hs)
    by (unfold x, hs; now rewrite length_topo_x, length_topo_h).
  assert (H2 : 2 <= length x).
  { unfold x. rewrite length_topo_x.
    destruct (gsw_distance lon lat); simpl; [congruence | lia]. }
  assert (E0 : nth 0 x NaN = Fin 0%Qc) by reflexivity.
  assert (Eq0 : grid_point d 0 = Fin 0%Qc).
  { unfold grid_point. f_equal.
    change (Q2Qc (inject_Z (Z.of_nat 0))) with 0%Qc. ring. }
  destruct (@segment_bounded x hs B 0 HB Hsp Hbx Hbh Hlx)
    as (x0 & x1 & y0 & y1 & Ex0 & Ex1 & Ey0 & Ey1 & Hlt & _); [lia|].
  rewrite E0 in Ex0. injection Ex0 as <-.
  assert (Ex : x = Fin 0%Qc :: tl x) by reflexivity.
  assert (Htl : tl x <> []).
  { intros E. rewrite Ex, E in H2. simpl in H2. lia. }
  destruct (@spacedb_last_gt B 0%Qc (tl x) HB) as (xl & El & Hxl);
    [rewrite <- Ex; exact Hsp | exact Htl |].
  rewrite <- Ex in El.
  assert (Eh : nth 0
                 (map (fun q => if (q <? hd NaN x)%float
                                   || (last x NaN <? q)%float
                                then last hs NaN else call_linear x hs q)
                      (map (grid_point d) (seq 0 n))) NaN = Fin y0).
  { destruct n as [|n]; [lia|]. cbn [seq map nth].
    rewrite Eq0, hd_nth0, E0, El. unfold fltb.
    replace (Qcltb 0 0) with false by (symmetry; now apply Qcltb_nlt).
    replace (Qcltb xl 0) with false
      by (symmetry; apply Qcltb_nlt; now apply Qclt_le_weak).
    cbn [orb]. unfold call_linear.
    assert (Es : searchsorted x (Fin 0%Qc) = 0).
    { destruct x as [|a x']; [reflexivity|]. cbn [nth] in E0. subst a.
      reflexivity. }
    rewrite Es. unfold clip.
    replace (Nat.min (Nat.max 0 1) (length x - 1)) with 1 by lia.
    cbn [Nat.sub]. rewrite E0, Ex1, Ey0, Ey1, slope_Fin by assumption.
    unfold fsub, fadd, fneg, fmul. f_equal. ring. }
  eexists. eexists. split; [exact Hgen|].
  split; [|split].
  - destruct n as [|n]; [lia|]. cbn [seq map nth]. exact Eq0.
  - now rewrite Eh.
  - now rewrite Eh, Ey0.
Qed.
End TopographyDepths.

(** The theorem on two stations 2.5 km apart, at the depths 10 and 20,
    with [dx = 1] and the magnitude [B = 100]. *)
Lemma gen_topomask_depths_finite_witness :
  exists xm hm,
    gen_topomask two_stations_distance minus_pressure no_other_kind
      [fz 10; fz 20] [fz 0; fz 1] [fz 0; fz 1] (fz 1) "linear"
    = Ok (xm, hm) /\
    xm <> [] /\ length hm = length xm /\
    bounded float_max hm = true.
Proof.
  apply (@gen_topomask_depths_finite two_stations_distance minus_pressure
           no_other_kind [fz 10; fz 20] [fz 0; fz 1] [fz 0; fz 1] (fz 1)
           (Q2Qc (inject_Z 100))).
  - split; apply Qcltb_nlt; vm_compute; reflexivity.
  - discriminate.
  - reflexivity.
  - reflexivity.
  - reflexivity.
  - reflexivity.
  - reflexivity.
  - reflexivity.
Defined.

(** The theorem on the same section: the mask starts at the depth 10. *)
Lemma gen_topomask_first_depth_witness :
  exists xm hm,
    gen_topomask two_stations_distance minus_pressure no_other_kind
      [fz 10; fz 20] [fz 0; fz 1] [fz 0; fz 1] (fz 1) "linear"
    = Ok (xm, hm) /\
    nth 0 xm NaN = fz 0 /\
    isfinite (nth 0 hm NaN) = true /\
    nth 0 hm NaN
    = nth 0 (topo_h minus_pressure [fz 10; fz 20] [fz 0; fz 1]) NaN.
Proof.
  apply (@gen_topomask_first_depth two_stations_distance minus_pressure
           no_other_kind [fz 10; fz 20] [fz 0; fz 1] [fz 0; fz 1] (fz 1)
           (Q2Qc (inject_Z 100))).
  - split; apply Qcltb_nlt; vm_compute; reflexivity.
  - discriminate.
  - reflexivity.
  - reflexivity.
  - reflexivity.
  - reflexivity.
  - reflexivity.
  - reflexivity.
Defined.

(** ** get_maxdepth: the deepest valid level *)

(** The maximum of finite values is one of them and is not below any. *)
Lemma fold_left_fmax_spec (l : list float) (a : Qc) :
  Forall (fun v => isfinite v = true) l ->
  exists m, fold_left fmax l (Fin a) = Fin m /\
    In (Fin m) (Fin a :: l) /\
    forall q, In (Fin q) (Fin a :: l) -> (q <= m)%Qc.
Proof.
  intros H. revert a. induction H as [|v l Hv _ IH]; intros a.
  - exists a. simpl. split; [reflexivity|]. split; [auto|].
    intros q [E | []]. injection E as <-. apply Qcle_refl.
  - apply isfinite_Fin in Hv as [b ->]. cbn [fold_left fmax fltb].
    destruct (Qcltb a b) eqn:E.
    + apply Qcltb_lt in E. destruct (IH b) as (m & Hm & Hin & Hmax).
      exists m. split; [assumption|]. split; [now right|].
      intros q [Eq | Hq]; [|now apply Hmax].
      injection Eq as <-. apply Qcle_trans with b;
        [now apply Qclt_le_weak|].
      apply Hmax. now left.
    + apply Qcltb_nlt in E. destruct (IH a) as (m & Hm & Hin & Hmax).
      exists m. split; [assumption|]. split.
      * destruct Hin as [Hin | Hin]; [now left | now right; right].
      * intros q [Eq | [Eq | Hq]].
        -- apply Hmax. now left.
        -- injection Eq as <-. apply Qcle_trans with a; [exact E|].
           apply Hmax. now left.
        -- apply Hmax. now right.
Qed.

Lemma station_depths_nth (self : DataFrame) (s k : nat) (d : Qc) :
  length (values self) = length (index self) ->
  k < length (index self) -> nth k (index self) NaN = Fin d ->
  nth k (station_depths self s) NaN
  = if isnan (nth s (nth k (values self) []) NaN) then Fin 0%Qc else Fin d.
Proof.
  intros Hl Hk Hd. unfold station_depths.
  set (g := fun p : float * list float =>
              (fst p * of_bool (notnull (nth s (snd p) NaN)))%float).
  rewrite (nth_indep _ NaN (g (NaN, [])))
    by now rewrite length_map, length_combine, Hl, Nat.min_id.
  rewrite (map_nth g), combine_nth by now symmetry.
  unfold g. cbn [fst snd]. rewrite Hd. unfold notnull.
  destruct (isnan _); cbn [negb of_bool]; unfold fz, fmul; f_equal.
  - change (Q2Qc (inject_Z 0)) with 0%Qc. ring.
  - change (Q2Qc (inject_Z 1)) with 1%Qc. ring.
Qed.

(** For finite depth levels, [get_maxdepth] gives every station a finite
    depth [m] that is not below the depth of any level where the station
    has a valid value, that is not below 0 if the station has a level
    without valid value, and that is 0 or the depth of a level with a valid
    value: for depths that are not negative, the depth of the deepest
    valid entry, or 0 without any. *)
Theorem get_maxdepth_deepest_valid (self : DataFrame) (n s : nat) :
  index self <> [] ->
  Forall (fun d => isfinite d = true) (index self) ->
  length (values self) = length (index self) ->
  rect n (values self) ->
  s < n ->
  exists h m,
    get_maxdepth self = Ok h /\ length h = n /\ nth s h NaN = Fin m /\
    (forall k d, k < length (index self) ->
       nth k (index self) NaN = Fin d ->
       (if isnan (nth s (nth k (values self) []) NaN)
        then 0 <= m else d <= m)%Qc) /\
    (m = 0%Qc \/
     exists k, k < length (index self) /\
       isnan (nth s (nth k (values self) []) NaN) = false /\
       nth k (index self) NaN = Fin m).
Proof.
  intros Hne Hfin Hlen Hrect Hs.
  destruct (get_maxdepth_stations self Hne Hlen Hrect) as (h & Hh & Hl & Hst).
  specialize (Hst s Hs).
  assert (Hll : length (station_depths self s) = length (index self)).
  { unfold station_depths.
    now rewrite length_map, length_combine, Hlen, Nat.min_id. }
  assert (Hnth : forall k, k < length (index self) ->
            exists d, nth k (index self) NaN = Fin d /\
              nth k (station_depths self s) NaN
              = if isnan (nth s (nth k (values self) []) NaN)
                then Fin 0%Qc else Fin d).
  { intros k Hk. destruct (@Forall_nth_finite _ k Hfin Hk) as [d Hd].
    exists d. split; [assumption|]. now apply station_depths_nth. }
  assert (Hf : Forall (fun v => isfinite v = true) (station_depths self s)).
  { apply Forall_nth. intros k dflt Hk.
    rewrite (nth_indep _ dflt NaN) by assumption. rewrite Hll in Hk.
    destruct (Hnth k Hk) as (d & _ & ->). now destruct (isnan _). }
  destruct (station_depths self s) as [|v l] eqn:E.
  { destruct (index self); simpl in *; [congruence | lia]. }
  inversion Hf as [|? ? Hv Hl']; subst.
  apply isfinite_Fin in Hv as [a ->].
  destruct (fold_left_fmax_spec a Hl') as (m & Hm & Hin & Hmax).
  simpl in Hst. rewrite Hm in Hst. injection Hst as Hst.
  exists h, m. split; [assumption|]. split; [auto|].
  split; [now symmetry|]. split.
  - intros k d Hk Hd. destruct (Hnth k Hk) as (d' & Hd' & Hk').
    rewrite Hd in Hd'. injection Hd' as <-.
    assert (Hink : In (nth k (Fin a :: l) NaN) (Fin a :: l))
      by (apply nth_In; rewrite Hll; exact Hk).
    rewrite Hk' in Hink.
    destruct (isnan _); now apply Hmax.
  - apply (In_nth _ _ NaN) in Hin as (k & Hk & Ek). rewrite Hll in Hk.
    destruct (Hnth k Hk) as (d & Hd & Hk'). rewrite Ek in Hk'.
    destruct (isnan (nth s (nth k (values self) []) NaN)) eqn:Ev.
    + left. now injection Hk' as ->.
    + right. exists k. injection Hk' as ->. auto.
Qed.

(** The theorem on the station with the values [1, 2, NaN, 4, NaN]. *)
Lemma get_maxdepth_deepest_valid_witness :
  exists h m,
    get_maxdepth station_with_gap = Ok h /\ length h = 1 /\
    nth 0 h NaN = Fin m /\
    (forall k d, k < length (index station_with_gap) ->
       nth k (index station_with_gap) NaN = Fin d ->
       (if isnan (nth 0 (nth k (values station_with_gap) []) NaN)
        then 0 <= m else d <= m)%Qc) /\
    (m = 0%Qc \/
     exists k, k < length (index station_with_gap) /\
       isnan (nth 0 (nth k (values station_with_gap) []) NaN) = false /\
       nth k (index station_with_gap) NaN = Fin m).
Proof.
  apply (@get_maxdepth_deepest_valid station_with_gap 1 0).
  - discriminate.
  - repeat constructor.
  - reflexivity.
  - repeat constructor.
  - lia.
Defined.

(** ** extrap_sec: the two directions *)

Lemma fadd_comm (a b : float) : (a + b)%float = (b + a)%float.
Proof.
  destruct a as [|s|p], b as [|t|q]; simpl; try reflexivity.
  - destruct s, t; reflexivity.
  - f_equal. ring.
Qed.

Lemma transpose_transpose {A} (d : A) (n : nat) (a : list (list A)) :
  rect n a -> a <> [] -> 0 < n -> transpose d (transpose d a) = a.
Proof.
  intros Hrect Hne Hn.
  pose proof (rect_ncols Hrect Hne) as Hnc.
  assert (Hnt : ncols (transpose d a) = length a).
  { unfold transpose. rewrite Hnc. destruct n as [|n]; [lia|].
    simpl. now rewrite length_map. }
  apply (nth_ext _ _ [] []).
  - now rewrite length_transpose.
  - intros i Hi. rewrite length_transpose, Hnt in Hi.
    rewrite nth_transpose by now rewrite Hnt.
    apply (nth_ext _ _ d d).
    + now rewrite length_map, length_transpose, Hnc, (rect_nth Hrect Hi).
    + intros j Hj. rewrite length_map, length_transpose, Hnc in Hj.
      rewrite (nth_indep _ d (nth i [] d))
        by now rewrite length_map, length_transpose, Hnc.
      rewrite (map_nth (fun r => nth i r d)).
      rewrite nth_transpose by now rewrite Hnc.
      rewrite (nth_indep _ d (nth j [] d)) by now rewrite length_map.
      now rewrite (map_nth (fun r => nth j r d)).
Qed.

Lemma well_shaped_transpose (data : list (list float))
    (dist depth : list float) :
  well_shaped data dist depth ->
  well_shaped (transpose NaN data) depth dist.
Proof.
  intros Hws. pose proof (well_shaped_ncols Hws) as Hnc.
  destruct Hws as (Hne & Hdne & Hrect & Hld).
  repeat split.
  - intros E. apply (f_equal (@length _)) in E.
    rewrite length_transpose, Hnc in E. destruct dist; simpl in *; congruence.
  - intros ->. destruct data; simpl in *; congruence.
  - unfold rect, transpose. apply Forall_map, Forall_forall.
    intros j _. now rewrite length_map.
  - now rewrite length_transpose.
Qed.

(** The two directions are treated alike: on a well-shaped grid, running
    [extrap_sec] on the transposed grid, with the two axes and the two
    weights exchanged, gives the transposed result. *)
Theorem extrap_sec_transposed (data : list (list float))
    (dist depth : list float) (w1 w2 : float) :
  well_shaped data dist depth ->
  exists out out',
    extrap_sec data dist depth w1 w2 = Ok out /\
    extrap_sec (transpose NaN data) depth dist w2 w1 = Ok out' /\
    length out' = length dist /\
    forall i j, i < length data -> j < length dist ->
      length (nth j out' []) = length data /\
      nth i (nth j out' []) NaN = nth j (nth i out []) NaN.
Proof.
  intros Hws. pose proof (well_shaped_transpose Hws) as Hwt.
  destruct (extrap_sec_spec w1 w2 Hws)
    as (nd1 & nd2 & out & H1 & H2 & Hout & Hlen & Hnth).
  destruct (extrap_sec_spec w2 w1 Hwt)
    as (nd1' & nd2' & out' & H1' & H2' & Hout' & Hlen' & Hnth').
  assert (E1 : nd1' = nd2).
  { unfold row_pass in H1'. unfold col_pass in H2. congruence. }
  assert (E2 : nd2' = nd1).
  { unfold col_pass in H2'. unfold row_pass in H1.
    destruct Hws as (Hne & Hdne & Hrect & Hld).
    rewrite (transpose_transpose NaN Hrect Hne) in H2';
      [congruence | destruct dist; simpl; [congruence | lia]]. }
  subst nd1' nd2'.
  assert (Hlt : length (transpose NaN data) = length dist)
    by (rewrite length_transpose; now apply well_shaped_ncols in Hws).
  exists out, out'. split; [assumption|]. split; [assumption|].
  split; [lia|]. intros i j Hi Hj.
  assert (Hld : length depth = length data) by apply Hws.
  destruct (Hnth' j) as [Hrow' Hij']; [lia|].
  destruct (Hnth i Hi) as [_ Hij].
  split; [lia|].
  rewrite Hij' by lia. rewrite Hij by assumption. apply fadd_comm.
Qed.

(** The theorem on a grid of two levels and three stations. *)
Lemma extrap_sec_transposed_witness :
  exists out out',
    extrap_sec grid_2x3 axis_3 axis_2 (fq 97 100) (fq 3 100) = Ok out /\
    extrap_sec (transpose NaN grid_2x3) axis_2 axis_3 (fq 3 100) (fq 97 100)
    = Ok out' /\
    length out' = length axis_3 /\
    forall i j, i < length grid_2x3 -> j < length axis_3 ->
      length (nth j out' []) = length grid_2x3 /\
      nth i (nth j out' []) NaN = nth j (nth i out []) NaN.
Proof.
  apply (@extrap_sec_transposed grid_2x3 axis_3 axis_2
           (fq 97 100) (fq 3 100)).
  shape.
Defined.

(** ** gen_topomask: the distance axis *)

Section DistanceAxis.
Variable gsw_distance : list float -> list float -> list float.

(** For distances between consecutive stations that are finite and not
    negative, the cumulated distances of line 152 have one entry more than
    there are distances, start at 0, are finite and never decrease. *)
Theorem topo_x_axis (lon lat : list float) :
  Forall (fun d => nonneg d = true) (gsw_distance lon lat) ->
  let x := topo_x gsw_distance lon lat in
  length x = S (length (gsw_distance lon lat)) /\
  nth 0 x NaN = fz 0 /\
  Forall (fun v => isfinite v = true) x /\
  sortedb x = true.
Proof.
  intros H x. split; [apply length_topo_x|]. split; [reflexivity|].
  split; [|now apply topo_x_sorted].
  unfold x, topo_x. constructor; [reflexivity|].
  apply cumsum_finite, Forall_map.
  eapply Forall_impl; [|exact H].
  intros v Hv. apply nonneg_Fin in Hv as (q & -> & _). now rewrite km_Fin.
Qed.
End DistanceAxis.

(** The theorem on two stations 2.5 km apart. *)
Lemma topo_x_axis_witness :
  let x := topo_x two_stations_distance [fz 0; fz 1] [fz 0; fz 1] in
  length x = S (length (two_stations_distance [fz 0; fz 1] [fz 0; fz 1])) /\
  nth 0 x NaN = fz 0 /\
  Forall (fun v => isfinite v = true) x /\
  sortedb x = true.
Proof.
  apply (@topo_x_axis two_stations_distance [fz 0; fz 1] [fz 0; fz 1]).
  repeat constructor.
Defined.

(** ** get_maxdepth: stations in reverse order *)

Lemma station_depths_reverse (self : DataFrame) (n s : nat) :
  rect n (values self) -> s < n ->
  station_depths (reverse_stations self) s
  = station_depths self (n - 1 - s).
Proof.
  intros Hrect Hs. unfold station_depths, reverse_stations.
  cbn [index values]. rewrite combine_map_r, map_map.
  apply map_ext_in. intros [d r] Hin. cbn [fst snd].
  apply in_combine_r in Hin. unfold rect in Hrect.
  rewrite Forall_forall in Hrect. specialize (Hrect r Hin).
  rewrite rev_nth by lia. now replace (length r - S s) with (n - 1 - s) by lia.
Qed.

(** Reversing the order of the stations reverses the depths that
    [get_maxdepth] returns. *)
Theorem get_maxdepth_reverse (self : DataFrame) (n : nat) :
  index self <> [] ->
  length (values self) = length (index self) ->
  rect n (values self) ->
  exists h,
    get_maxdepth self = Ok h /\
    get_maxdepth (reverse_stations self) = Ok (rev h).
Proof.
  intros Hne Hlen Hrect.
  destruct (get_maxdepth_stations self Hne Hlen Hrect) as (h & Hh & Hl & Hst).
  assert (Hrect' : rect n (values (reverse_stations self))).
  { unfold reverse_stations, rect. cbn [values]. apply Forall_map.
    eapply Forall_impl; [|exact Hrect]. intros r Hr.
    now rewrite length_rev. }
  destruct (@get_maxdepth_stations (reverse_stations self) n)
    as (h' & Hh' & Hl' & Hst'); auto.
  { unfold reverse_stations. cbn [index values]. now rewrite length_map. }
  exists h. split; [assumption|]. rewrite Hh'. f_equal.
  apply (nth_ext _ _ NaN NaN); [now rewrite length_rev, Hl, Hl'|].
  intros s Hs. rewrite Hl' in Hs.
  specialize (Hst' s Hs).
  rewrite (station_depths_reverse self Hrect Hs) in Hst'.
  rewrite (Hst (n - 1 - s)) in Hst' by lia. injection Hst' as Hst'.
  rewrite rev_nth by lia. rewrite <- Hst', Hl. f_equal. lia.
Qed.

(** Three levels and two stations, the second station one level
    shallower. *)
Lemma get_maxdepth_reverse_witness :
  exists h,
    get_maxdepth {| index := [fz 10; fz 20; fz 30];
                    values := [[fz 1; fz 2]; [fz 3; fz 4]; [fz 5; NaN]] |}
    = Ok h /\
    get_maxdepth
      (reverse_stations
         {| index := [fz 10; fz 20; fz 30];
            values := [[fz 1; fz 2]; [fz 3; fz 4]; [fz 5; NaN]] |})
    = Ok (rev h).
Proof.
  apply (@get_maxdepth_reverse
           {| index := [fz 10; fz 20; fz 30];
              values := [[fz 1; fz 2]; [fz 3; fz 4]; [fz 5; NaN]] |} 2).
  - discriminate.
  - reflexivity.
  - repeat constructor.
Defined.
